(** * mobx-light-form: the Form class of src/index.ts

    A shallow embedding of the field registry, the validation engine and
    the mutation operations of class [Form], and the properties of the
    specification settled against it.

    Conventions of the embedding.
    - JavaScript values that a field can hold are the data values of
      [JsVal].  Numbers are carried as integers: no operation of [Form]
      computes with a field value, it only stores it and hands it to
      [isEmpty] and to the validation rules.
    - Objects are never changed in place by [Form] on a field: [update],
      [reset] and [clear] replace [this[key]] through [Object.assign] with
      another object.  Field objects are therefore values here.
    - A validation rule is represented by what it answers on a value; an
      asynchronous rule by the pair its promise resolves to.  A call of
      [validateField] that the caller does not await ([update], [clear],
      [generateField]) is followed until it has settled, and no other
      operation starts in between: the interleavings of pending
      validations of section 5 of the specification are not part of this
      model.
    - MobX's [makeObservable] only wraps the members it is given; it is
      not modelled. *)

From Stdlib Require Import ZArith.
From stdpp Require Import gmap strings list fin_maps pretty.

Open Scope string_scope.
Open Scope list_scope.

(* ================================================================== *)
(** ** JavaScript data values *)
(* ================================================================== *)

#[warnings="-register-all"]
Inductive JsVal : Type :=
| VUndefined
| VNull
| VBool (b : bool)
| VNum (n : Z)
| VStr (s : string)
| VArr (items : list JsVal)
| VObj (entries : list (string * JsVal)).

(** [!!v] *)
Definition truthy (v : JsVal) : bool :=
  match v with
  | VUndefined | VNull => false
  | VBool b => b
  | VNum n => negb (n =? 0)%Z
  | VStr s => negb (bool_decide (s = ""))
  | VArr _ | VObj _ => true
  end.

(** [isEmpty] is the default export of the package [lodash.isempty]
    (line 1 of index.ts), which is not part of this repository.  The
    definition follows that package's implementation on data values:
    [value == null] is empty; an array or a string is empty when its
    length is 0; for anything else the function looks for an own
    enumerable key with [for (key in value)] and answers [true] when there
    is none, which is the case of every number and boolean. *)
Definition isEmpty (v : JsVal) : bool :=
  match v with
  | VUndefined | VNull => true
  | VStr s => bool_decide (s = "")
  | VArr items => match items with [] => true | _ :: _ => false end
  | VBool _ | VNum _ => true
  | VObj entries => match entries with [] => true | _ :: _ => false end
  end.

(** [isEmpty] on an array of rules ([target.validation]). *)
Definition isEmpty_array {A : Type} (l : list A) : bool :=
  match l with [] => true | _ :: _ => false end.

(* ================================================================== *)
(** ** Fields and validation rules *)
(* ================================================================== *)

(** [enum ERROR_TYPE] *)
Definition KEY_NOT_EXISTS : string := "Key should exists.".
Definition VALUE_NOT_REQUIRED : string := "Value should be required.".
Definition VALUE_NOT_VALID : string := "Value is not valid.".

(** [type Validation = RegExp | CustomFuncValidation |
    CustomAsyncFuncValidation].  A pattern is given by its [test]; a
    function by the pair it returns (or resolves to). *)
Inductive Validation : Type :=
| RegExp (test : JsVal -> bool)
| CustomFunc (call : JsVal -> bool * option string).

(** [interface FieldSource<T>] *)
Record FieldSource : Type := mkField {
  key : string;
  label : string;
  value : JsVal;
  isRequired : bool;
  requiredMessage : option string;
  validation : list Validation
}.

Definition with_value (x : JsVal) (t : FieldSource) : FieldSource :=
  {| key := key t; label := label t; value := x;
     isRequired := isRequired t; requiredMessage := requiredMessage t;
     validation := validation t |}.

(** What [await (typeof v === 'function' ? v(value) : v.test(value))]
    evaluates to. *)
Inductive ValidationResult : Type :=
| ResBool (b : bool)
| ResPair (passed : bool) (message : option string).

Definition invoke (v : Validation) (x : JsVal) : ValidationResult :=
  match v with
  | RegExp test => ResBool (test x)
  | CustomFunc call => let '(passed, message) := call x in ResPair passed message
  end.

(** [m || d] for [m : string | undefined]: the empty string is falsy. *)
Definition or_default (m : option string) (d : string) : string :=
  match m with
  | Some s => if bool_decide (s = "") then d else s
  | None => d
  end.

(** [m ?? d] for [m : string | undefined]. *)
Definition nullish_default (m : option string) (d : string) : string :=
  match m with
  | Some s => s
  | None => d
  end.

(** The two tests of the loop body of [validateField] (lines 235-244):
    the message written when the result is a failure, [None] when the loop
    goes on. *)
Definition failure (r : ValidationResult) : option string :=
  match r with
  | ResPair false message => Some (or_default message VALUE_NOT_VALID)
  | ResPair true _ => None
  | ResBool false => Some VALUE_NOT_VALID
  | ResBool true => None
  end.

(** The loop [for (const v of target.validation)]: the rules that were
    invoked, in the order of their invocation, and the error found. *)
Fixpoint run_validation (rules : list Validation) (x : JsVal)
  : list Validation * option string :=
  match rules with
  | [] => ([], None)
  | v :: rest =>
      match failure (invoke v x) with
      | Some message => ([v], Some message)
      | None =>
          let '(invoked, e) := run_validation rest x in (v :: invoked, e)
      end
  end.

(** [target.isRequired && isEmpty(target.value)] (line 222) *)
Definition required_check (target : FieldSource) : bool :=
  isRequired target && isEmpty (value target).

(** The body of [validateField] on a field object: the rules invoked and
    the value assigned to [this._errors[key]]. *)
Definition check (target : FieldSource) : list Validation * option string :=
  if required_check target then
    ([], Some (nullish_default (requiredMessage target) VALUE_NOT_REQUIRED))
  else if negb (isEmpty_array (validation target)) then
    run_validation (validation target) (value target)
  else ([], None).

Definition invoked (target : FieldSource) : list Validation := (check target).1.
Definition verdict (target : FieldSource) : option string := (check target).2.

(* ================================================================== *)
(** ** The Form object *)
(* ================================================================== *)

(** An own property of the instance other than the four private maps: a
    field object (what [generateField] returns and what [update], [reset]
    and [clear] store), or any other data value (the [__identifier] set by
    the constructor, a property that a subclass declares next to its
    fields). *)
Inductive Member : Type :=
| MField (fld : FieldSource)
| MOther (v : JsVal).

Record Form : Type := mkForm {
  _initialValues : gmap string FieldSource;
  _touched : gmap string bool;
  _errors : gmap string (option string);
  keys : list string;
  props : gmap string Member
}.

(** The names that [key in this] finds on every instance without looking
    at [props]: the four private maps (own properties), the accessors and
    the methods of [Form.prototype], and the members of
    [Object.prototype]. *)
Definition internals : list string :=
  ["_initialValues"; "_touched"; "_errors"; "keys"].

Definition accessors : list string :=
  ["__id"; "errors"; "touched"; "isValid"; "initialValues"].

Definition methods : list string :=
  ["constructor"; "update"; "clear"; "reset"; "untouch"; "untouchAll";
   "validate"; "generateField"; "addKey"; "setTouched"; "setErrors";
   "validateField"; "getUniqueId"].

Definition object_prototype : list string :=
  ["__defineGetter__"; "__defineSetter__"; "hasOwnProperty";
   "__lookupGetter__"; "__lookupSetter__"; "isPrototypeOf";
   "propertyIsEnumerable"; "toString"; "valueOf"; "__proto__";
   "toLocaleString"].

Definition class_members : list string :=
  internals ++ accessors ++ methods ++ object_prototype.

(** [key in this] *)
Definition has_property (f : Form) (k : string) : bool :=
  bool_decide (k ∈ class_members) || bool_decide (is_Some (props f !! k)).

Inductive JsError : Type :=
| Error (message : string)
| TypeError.

(** How a call ends.  [Throws e f]: an exception (or, for an awaited
    asynchronous call, a rejection) [e], the object being left as [f].
    [Escapes]: the call treats a member of the class itself as a field
    (it overwrites one of the private maps or a method, or validates one);
    what the object is afterwards is not described by [Form]. *)
Inductive Completion (A : Type) : Type :=
| Normal (a : A)
| Throws (e : JsError) (f : Form)
| Escapes.
Arguments Normal {A} a.
Arguments Throws {A} e f.
Arguments Escapes {A}.

Definition and_then (c : Completion Form) (k : Form -> Completion Form)
  : Completion Form :=
  match c with
  | Normal f => k f
  | Throws e f => Throws e f
  | Escapes => Escapes
  end.

(** The object a call leaves behind. *)
Definition state_after (c : Completion Form) : option Form :=
  match c with
  | Normal f => Some f
  | Throws _ f => Some f
  | Escapes => None
  end.

(** A call of an asynchronous method that is not awaited: a rejection is
    not observed by the caller, and [validateField] assigns nothing before
    it rejects.  The call is followed here until it has settled: this is
    the object once the validation has written its result, not the object
    at the caller's next statement (a rule's verdict is written after the
    [await] of line 229).  What is proved of a method that starts
    validations is therefore about that one call, from an object with no
    validation pending, up to the end of its validations. *)
Definition not_awaited (c : Completion Form) (before : Form) : Completion Form :=
  match c with
  | Normal f => Normal f
  | Throws _ _ => Normal before
  | Escapes => Escapes
  end.

(** [Array.prototype.forEach] / [for ... of] with a body that may throw. *)
Fixpoint forEach {A : Type} (body : A -> Form -> Completion Form)
    (l : list A) (f : Form) : Completion Form :=
  match l with
  | [] => Normal f
  | a :: rest => and_then (body a f) (forEach body rest)
  end.

(** [constructor()]; [id] is what [getUniqueId()] draws. *)
Definition new_Form (id : string) : Form :=
  {| _initialValues := ∅; _touched := ∅; _errors := ∅; keys := [];
     props := {[ "__identifier" := MOther (VStr id) ]} |}.

(** [get __id()] *)
Definition __id (f : Form) : option Member := props f !! "__identifier".

(** [get errors()], [get touched()], [get initialValues()] return the
    private maps themselves. *)
Definition errors (f : Form) : gmap string (option string) := _errors f.
Definition touched (f : Form) : gmap string bool := _touched f.
Definition initialValues (f : Form) : gmap string FieldSource := _initialValues f.

(** [get isValid()]: [Object.values(this._errors).every(e => e === undefined)] *)
Definition isValid (f : Form) : bool :=
  forallb (fun e : option string => bool_decide (e = None))
          ((map_to_list (_errors f)).*2).

(** [addKey] *)
Definition addKey (k : string) (f : Form) : Form :=
  if bool_decide (k ∈ keys f) then f
  else {| _initialValues := _initialValues f; _touched := _touched f;
          _errors := _errors f; keys := keys f ++ [k]; props := props f |}.

(** [setTouched] *)
Definition setTouched (k : string) (b : bool) (f : Form) : Form :=
  {| _initialValues := _initialValues f; _touched := <[k := b]> (_touched f);
     _errors := _errors f; keys := keys f; props := props f |}.

(** [setErrors], and the assignments [this._errors[key] = ...] of
    [validateField] *)
Definition setErrors (k : string) (e : option string) (f : Form) : Form :=
  {| _initialValues := _initialValues f; _touched := _touched f;
     _errors := <[k := e]> (_errors f); keys := keys f; props := props f |}.

(** [this._initialValues = {...this._initialValues, [key]: t}] *)
Definition setInitialValue (k : string) (t : FieldSource) (f : Form) : Form :=
  {| _initialValues := <[k := t]> (_initialValues f); _touched := _touched f;
     _errors := _errors f; keys := keys f; props := props f |}.

(** [Object.assign(this, {[key]: m})], and the assignment [this.name = m]
    of a subclass constructor.  An accessor of [Form.prototype] has no
    setter: the assignment throws, a TypeError for the class as it is
    written (for [errors], [touched] and [isValid], which [makeObservable]
    turns into computed values, the exception raised is MobX's own Error;
    the two are not told apart here).  For the other members of the class
    the assignment succeeds and replaces the member: what the object is
    then is not described by [Form], and the outcome is [Escapes]. *)
Definition overwrite_member (k : string) (f : Form) : Completion Form :=
  if bool_decide (k ∈ accessors) then Throws TypeError f else Escapes.

Definition assign (k : string) (m : Member) (f : Form) : Completion Form :=
  if bool_decide (k ∈ class_members) then overwrite_member k f
  else Normal {| _initialValues := _initialValues f; _touched := _touched f;
                 _errors := _errors f; keys := keys f;
                 props := <[k := m]> (props f) |}.

(* ------------------------------------------------------------------ *)
(** *** Reading a data value as a validation target *)
(* ------------------------------------------------------------------ *)

(** The own enumerable properties that [{...v}] copies. *)
Definition own_enumerable (v : JsVal) : list (string * JsVal) :=
  match v with
  | VObj entries => entries
  | VArr items => imap (fun i x => (pretty i, x)) items
  | VStr s =>
      imap (fun i c => (pretty i, VStr (String c EmptyString)))
           (Strings.String.list_ascii_of_string s)
  | VUndefined | VNull | VBool _ | VNum _ => []
  end.

(** [o[name] = x] on the entries of a plain object: an existing entry
    keeps its place. *)
Fixpoint obj_set (entries : list (string * JsVal)) (name : string) (x : JsVal)
  : list (string * JsVal) :=
  match entries with
  | [] => [(name, x)]
  | (n, y) :: rest =>
      if bool_decide (n = name) then (n, x) :: rest
      else (n, y) :: obj_set rest name x
  end.

Fixpoint obj_get (entries : list (string * JsVal)) (name : string) : JsVal :=
  match entries with
  | [] => VUndefined
  | (n, y) :: rest => if bool_decide (n = name) then y else obj_get rest name
  end.

(** [v.name] for the four names that [validateField] reads
    ([isRequired], [value], [requiredMessage], [validation]): none of them
    is a property of an array, a string, a number or a boolean. *)
Definition prop_of (v : JsVal) (name : string) : JsVal :=
  match v with
  | VObj entries => obj_get entries name
  | _ => VUndefined
  end.

(** [{...this[key], value: x}] *)
Definition spread_with_value (m : Member) (x : JsVal) : Member :=
  match m with
  | MField t => MField (with_value x t)
  | MOther v => MOther (VObj (obj_set (own_enumerable v) "value" x))
  end.

(** What [validateField] does with a target. *)
Inductive Verdict : Type :=
| Assigns (e : option string)   (* [this._errors[key] = e] *)
| Rejects                       (* a TypeError inside the async function *)
| Untyped.                      (* the value assigned is not a string *)

(** The body of [validateField] on a target that is a data value.  No
    data value is a function or has a callable [test], so a [validation]
    property that [isEmpty] does not skip ends in a TypeError, either
    when it is iterated or at the first rule. *)
Definition check_other (v : JsVal) : Verdict :=
  match v with
  | VUndefined | VNull => Rejects
  | _ =>
      if truthy (prop_of v "isRequired") && isEmpty (prop_of v "value") then
        match prop_of v "requiredMessage" with
        | VUndefined | VNull => Assigns (Some VALUE_NOT_REQUIRED)
        | VStr s => Assigns (Some s)
        | _ => Untyped
        end
      else if negb (isEmpty (prop_of v "validation")) then Rejects
      else Assigns None
  end.

Definition check_member (m : Member) : Verdict :=
  match m with
  | MField t => Assigns (verdict t)
  | MOther v => check_other v
  end.

(* ------------------------------------------------------------------ *)
(** *** The methods of Form *)
(* ------------------------------------------------------------------ *)

(** [validateField(key, _target?)]; [target = _target ?? this[key]]. *)
Definition validateField (k : string) (_target : option FieldSource) (f : Form)
  : Completion Form :=
  match _target with
  | Some t => Normal (setErrors k (verdict t) f)
  | None =>
      match props f !! k with
      | Some m =>
          match check_member m with
          | Assigns e => Normal (setErrors k e f)
          | Rejects => Throws TypeError f
          | Untyped => Escapes
          end
      | None =>
          if bool_decide (k ∈ class_members) then Escapes
          else Throws TypeError f   (* [this[key]] is undefined *)
      end
  end.

Arguments validateField : simpl never.

(** The body of the [forEach] of [update] (lines 111-125). *)
Definition update_key (withoutValidation : bool) (change : string * JsVal)
    (f : Form) : Completion Form :=
  let '(k, x) := change in
  if has_property f k then
    and_then
      (match props f !! k with
       | Some m => assign k (spread_with_value m x) f
       | None => overwrite_member k f   (* [k] is a member of the class *)
       end)
      (fun f1 =>
         let f2 := setTouched k true f1 in
         if withoutValidation then Normal f2
         else not_awaited (validateField k None f2) f2)
  else Normal f.

Arguments update_key : simpl never.

(** [update(changes, withoutValidation?)]; [changes] lists the entries of
    the object in the order of [Object.keys]. *)
Definition update (changes : list (string * JsVal)) (withoutValidation : bool)
    (f : Form) : Completion Form :=
  forEach (update_key withoutValidation) changes f.

(** [Object.assign(this, {[key]: this._initialValues[key]})] *)
Definition restore (k : string) (f : Form) : Completion Form :=
  match _initialValues f !! k with
  | Some t => assign k (MField t) f
  | None => assign k (MOther VUndefined) f
  end.

Definition clear_key (k : string) (f : Form) : Completion Form :=
  and_then (restore k f)
    (fun f1 =>
       let f2 := setTouched k false f1 in
       not_awaited (validateField k (_initialValues f2 !! k) f2) f2).

(** [clear()] *)
Definition clear (f : Form) : Completion Form := forEach clear_key (keys f) f.

Definition reset_key (k : string) (f : Form) : Completion Form :=
  and_then (restore k f)
    (fun f1 => Normal (setErrors k None (setTouched k false f1))).

(** [reset()] *)
Definition reset (f : Form) : Completion Form := forEach reset_key (keys f) f.

(** [untouch(key)] *)
Definition untouch (k : string) (f : Form) : Form :=
  if has_property f k then setTouched k false f else f.

(** [untouchAll()] *)
Definition untouchAll (f : Form) : Form :=
  foldl (fun g k => setTouched k false g) f (keys f).

(** [validate()]: each [validateField] is awaited, a rejection ends the
    loop. *)
Definition validate (f : Form) : Completion Form :=
  forEach (fun k g => validateField k None g) (keys f) f.

(** The argument [options : Partial<FieldSource<T>> & { key: string }] of
    [generateField]; [None] is a property that is not given.  ([key] is
    optional here as well: the test suite calls [generateField] without
    it.)  A property given as [undefined] reads like an absent one in
    every test that [Form] makes: [key] through [!options.key],
    [isRequired] for truthiness, [validation] through [isEmpty],
    [requiredMessage] through [??]; only [label], which [Form] never
    reads, would then be [undefined] instead of the default.  For [value]
    the two are told apart: [Some VUndefined] is a value given as
    [undefined]. *)
Module Options.
Record t : Type := mk {
  key : option string;
  label : option string;
  value : option JsVal;
  isRequired : option bool;
  requiredMessage : option string;
  validation : option (list Validation)
}.
End Options.

(** [options.value ?? ''] *)
Definition value_or_empty (v : option JsVal) : JsVal :=
  match v with
  | None | Some VUndefined | Some VNull => VStr ""
  | Some x => x
  end.

(** [{...Form.FIELD_DEFAULT_VALUES, ...options, value: options.value ?? ''}] *)
Definition initialValue_of (k : string) (o : Options.t) : FieldSource :=
  {| key := k;
     label := default "" (Options.label o);
     value := value_or_empty (Options.value o);
     isRequired := default false (Options.isRequired o);
     requiredMessage := Options.requiredMessage o;
     validation := default [] (Options.validation o) |}.

(** [generateField(options, withoutInitialValidation?)]; the test
    [!options.key] holds of an absent key and of the empty string. *)
Definition generateField (o : Options.t) (withoutInitialValidation : bool)
    (f : Form) : Completion (Form * FieldSource) :=
  match Options.key o with
  | None => Throws (Error KEY_NOT_EXISTS) f
  | Some k =>
      if bool_decide (k = "") then Throws (Error KEY_NOT_EXISTS) f
      else
        let f1 := setErrors k None (setTouched k false (addKey k f)) in
        let initialValue := initialValue_of k o in
        let f2 := setInitialValue k initialValue f1 in
        if withoutInitialValidation then Normal (f2, initialValue)
        else
          match not_awaited (validateField k (Some initialValue) f2) f2 with
          | Normal f3 => Normal (f3, initialValue)
          | Throws e g => Throws e g
          | Escapes => Escapes
          end
  end.

(* ------------------------------------------------------------------ *)
(** *** Subclasses and reachable objects *)
(* ------------------------------------------------------------------ *)

(** [this[name] = this.generateField(options, w)], the statement of a
    subclass constructor that declares a field. *)
Definition declare (name : string) (o : Options.t) (w : bool) (f : Form)
  : Completion Form :=
  match generateField o w f with
  | Normal (f1, fld) => assign name (MField fld) f1
  | Throws e g => Throws e g
  | Escapes => Escapes
  end.

(** The objects that the constructor and the methods produce. *)
Inductive reachable : Form -> Prop :=
| reach_new id : reachable (new_Form id)
| reach_generateField f o w f' fld :
    reachable f -> generateField o w f = Normal (f', fld) -> reachable f'
| reach_assign f name m f' :
    reachable f -> assign name m f = Normal f' -> reachable f'
| reach_update f changes w f' :
    reachable f -> state_after (update changes w f) = Some f' -> reachable f'
| reach_clear f f' :
    reachable f -> state_after (clear f) = Some f' -> reachable f'
| reach_reset f f' :
    reachable f -> state_after (reset f) = Some f' -> reachable f'
| reach_validate f f' :
    reachable f -> state_after (validate f) = Some f' -> reachable f'
| reach_untouch f k : reachable f -> reachable (untouch k f)
| reach_untouchAll f : reachable f -> reachable (untouchAll f).

(** [length] of a value, for the rules of the examples. *)
Definition js_length (v : JsVal) : option nat :=
  match v with
  | VStr s => Some (String.length s)
  | VArr items => Some (length items)
  | _ => None
  end.

(** [(v: string) => [v.length < 5, 'maxLength error']] *)
Definition maxLength_rule : Validation :=
  CustomFunc (fun v =>
    (match js_length v with Some n => Nat.ltb n 5 | None => false end,
     Some "maxLength error")).

(** [class FooForm] of index.test.ts (lines 57-85). *)
Definition foo_options : Options.t :=
  {| Options.key := Some "foo"; Options.label := None;
     Options.value := Some (VStr ""); Options.isRequired := Some true;
     Options.requiredMessage := None;
     Options.validation := Some [maxLength_rule] |}.

Definition bar_options : Options.t :=
  {| Options.key := Some "bar"; Options.label := None;
     Options.value := None; Options.isRequired := Some true;
     Options.requiredMessage := Some "Required";
     Options.validation := None |}.

Definition FooForm : Completion Form :=
  and_then (declare "foo" foo_options false (new_Form "k3x9q0a1z"))
           (declare "bar" bar_options true).

Definition fooForm : Form :=
  default (new_Form "k3x9q0a1z") (state_after FooForm).

(** The object [f] in which [this[k]] is [m]. *)
Definition with_member (k : string) (m : Member) (f : Form) : Form :=
  {| _initialValues := _initialValues f; _touched := _touched f;
     _errors := _errors f; keys := keys f; props := <[k := m]> (props f) |}.

(* ------------------------------------------------------------------ *)
(** *** The evaluation order of section 4.2, in the specification's words *)
(* ------------------------------------------------------------------ *)

(** A rule passes on a value. *)
Inductive rule_passes (x : JsVal) : Validation -> Prop :=
| pattern_passes test :
    test x = true -> rule_passes x (RegExp test)
| callable_passes call message :
    call x = (true, message) -> rule_passes x (CustomFunc call).

(** A rule fails on a value, with the message of the failure: the generic
    one for a pattern, the returned one for a callable when it is present
    (and not the empty string), else the generic one. *)
Inductive rule_fails (x : JsVal) : Validation -> string -> Prop :=
| pattern_fails test :
    test x = false -> rule_fails x (RegExp test) VALUE_NOT_VALID
| callable_fails_message call message :
    call x = (false, Some message) -> message <> "" ->
    rule_fails x (CustomFunc call) message
| callable_fails_generic call message :
    call x = (false, message) -> message = None \/ message = Some "" ->
    rule_fails x (CustomFunc call) VALUE_NOT_VALID.

(** [evaluation t rules_invoked error]: steps 1 to 3 of section 4.2. *)
Inductive evaluation (t : FieldSource) : list Validation -> option string -> Prop :=
| eval_required :
    isRequired t = true -> isEmpty (value t) = true ->
    evaluation t []
      (Some (match requiredMessage t with
             | Some message => message
             | None => VALUE_NOT_REQUIRED
             end))
| eval_rule_fails before v after message :
    ~ (isRequired t = true /\ isEmpty (value t) = true) ->
    validation t = before ++ v :: after ->
    Forall (rule_passes (value t)) before ->
    rule_fails (value t) v message ->
    evaluation t (before ++ [v]) (Some message)
| eval_all_pass :
    ~ (isRequired t = true /\ isEmpty (value t) = true) ->
    Forall (rule_passes (value t)) (validation t) ->
    evaluation t (validation t) None.

(** The values on which the required check fails, as the specification
    lists them: undefined, null, the empty string, an empty container. *)
Inductive listed_empty : JsVal -> Prop :=
| listed_undefined : listed_empty VUndefined
| listed_null : listed_empty VNull
| listed_empty_string : listed_empty (VStr "")
| listed_empty_array : listed_empty (VArr [])
| listed_empty_object : listed_empty (VObj []).

(** The values on which [isEmpty] answers [true]: the listed ones, and
    every number and boolean. *)
Inductive lodash_empty : JsVal -> Prop :=
| empty_listed v : listed_empty v -> lodash_empty v
| empty_number n : lodash_empty (VNum n)
| empty_boolean b : lodash_empty (VBool b).

(** A required numeric field holding 42. *)
Definition age_field : FieldSource :=
  {| key := "age"; label := "Age"; value := VNum 42; isRequired := true;
     requiredMessage := None; validation := [] |}.

(** A field whose only rule fails with the empty string as its message,
    and a required empty field whose [requiredMessage] is the empty
    string. *)
Definition silent_rule : Validation := CustomFunc (fun _ => (false, Some "")).

Definition nickname_field : FieldSource :=
  {| key := "nickname"; label := ""; value := VStr "AAA"; isRequired := false;
     requiredMessage := None; validation := [silent_rule] |}.

Definition name_field : FieldSource :=
  {| key := "name"; label := ""; value := VStr ""; isRequired := true;
     requiredMessage := Some ""; validation := [] |}.

(** Options with the value 0. *)
Definition count_options : Options.t :=
  {| Options.key := Some "count"; Options.label := Some "Count";
     Options.value := Some (VNum 0); Options.isRequired := None;
     Options.requiredMessage := None; Options.validation := None |}.

(* ------------------------------------------------------------------ *)
(** *** Invariants of the registry *)
(* ------------------------------------------------------------------ *)

(** Every key of [touched] and of [errors] is a registered key. *)
Definition registered_only (f : Form) : Prop :=
  (forall k, is_Some (_touched f !! k) -> k ∈ keys f) /\
  (forall k, is_Some (_errors f !! k) -> k ∈ keys f).

(** Every registered key has an initial snapshot. *)
Definition snapshots_cover (f : Form) : Prop :=
  forall k, k ∈ keys f -> is_Some (_initialValues f !! k).

(** [f'] differs from [f] at most in [this[...]] and in the entries of
    [touched] and [errors] at the keys of [S]: the key list and the
    snapshots are the same. *)
Definition touches_only (S : string -> Prop) (f f' : Form) : Prop :=
  keys f' = keys f /\
  _initialValues f' = _initialValues f /\
  (forall j, ~ S j -> _touched f' !! j = _touched f !! j) /\
  (forall j, ~ S j -> _errors f' !! j = _errors f !! j).

(** What [{...this.__identifier, value: 'x'}] is on [fooForm]: the
    characters of the identifier by index, and the value. *)
Definition spread_identifier : JsVal :=
  VObj [("0", VStr "k"); ("1", VStr "3"); ("2", VStr "x"); ("3", VStr "9");
        ("4", VStr "q"); ("5", VStr "0"); ("6", VStr "a"); ("7", VStr "1");
        ("8", VStr "z"); ("value", VStr "x")].

(** Two objects that differ at most in their errors map. *)
Definition same_but_errors (f g : Form) : Prop :=
  keys f = keys g /\ _initialValues f = _initialValues g /\
  _touched f = _touched g /\ props f = props g.

(** A second registration of the key 'foo', with another value. *)
Definition foo_again_options : Options.t :=
  {| Options.key := Some "foo"; Options.label := None;
     Options.value := Some (VStr "changed"); Options.isRequired := None;
     Options.requiredMessage := None; Options.validation := None |}.

(** Every change key names a declared field: an own property holding a
    field object, under a name that no member of the class has. *)
Definition declared (f : Form) (k : string) : Prop :=
  (k ∉ class_members) /\ exists t, props f !! k = Some (MField t).

(** [g] is [f] with every registered key restored: [this[key]] is the
    snapshot, [touched[key]] is false and [errors[key]] is [err] of the
    snapshot; the key list, the snapshots, and the properties and entries
    of every other key are those of [f]. *)
Definition restored (err : FieldSource -> option string) (f g : Form) : Prop :=
  keys g = keys f /\ _initialValues g = _initialValues f /\
  (forall k, k ∈ keys f ->
     exists init,
       _initialValues f !! k = Some init /\
       props g !! k = Some (MField init) /\
       _touched g !! k = Some false /\
       _errors g !! k = Some (err init)) /\
  (forall j, j ∉ keys f ->
     props g !! j = props f !! j /\ _touched g !! j = _touched f !! j /\
     _errors g !! j = _errors f !! j).

(** The registered keys can be restored: each has a snapshot and none is
    the name of a member of the class. *)
Definition restorable (f : Form) : Prop :=
  snapshots_cover f /\ Forall (fun k => k ∉ class_members) (keys f).

(** Every key of [l] is bound on the object to a field object. *)
Definition fields_bound (f : Form) (l : list string) : Prop :=
  forall k, k ∈ l -> exists t, props f !! k = Some (MField t).

(* ================================================================== *)
(** * Properties *)
(* ================================================================== *)

(* ------------------------------------------------------------------ *)
(** ** The expectations of index.test.ts *)
(* ------------------------------------------------------------------ *)

(** 'generateField() - set error if value is falsy when required option is
    true', and the same with [withoutInitialValidation]. *)
Example test_generateField_errors :
  errors fooForm !! "foo" = Some (Some VALUE_NOT_REQUIRED) /\
  errors fooForm !! "bar" = Some None.
Proof. split; reflexivity. Qed.

(** 'update() - update field and make it touched' *)
Example test_update :
  exists g,
    update [("foo", VStr "abcd"); ("bar", VStr "c")] false fooForm = Normal g /\
    (exists t, props g !! "foo" = Some (MField t) /\ value t = VStr "abcd") /\
    touched g !! "foo" = Some true /\
    (exists t, props g !! "bar" = Some (MField t) /\ value t = VStr "c") /\
    touched g !! "bar" = Some true.
Proof.
  eexists. split; [vm_compute; reflexivity |].
  split; [eexists; split; reflexivity |]. split; [reflexivity |].
  split; [eexists; split; reflexivity | reflexivity].
Qed.

(** 'reset()' and 'clear()' after [update({foo: 'abcde'})]. *)
Example test_reset_clear :
  exists g,
    update [("foo", VStr "abcde")] false fooForm = Normal g /\
    errors g !! "foo" = Some (Some "maxLength error") /\
    touched g !! "foo" = Some true /\
    (exists r, reset g = Normal r /\
       errors r !! "foo" = Some None /\ touched r !! "foo" = Some false /\
       isValid r = true) /\
    (exists c, clear g = Normal c /\
       errors c !! "foo" = Some (Some VALUE_NOT_REQUIRED) /\
       touched c !! "foo" = Some false /\ isValid c = false).
Proof.
  eexists. split; [vm_compute; reflexivity |].
  split; [reflexivity |]. split; [reflexivity |]. split.
  - eexists. split; [vm_compute; reflexivity |].
    split; [reflexivity |]. split; reflexivity.
  - eexists. split; [vm_compute; reflexivity |].
    split; [reflexivity |]. split; reflexivity.
Qed.

(** 'validate() - errorMessage should be requiredMessage ...' *)
Example test_validate_required :
  exists g,
    validate fooForm = Normal g /\
    errors g !! "foo" = Some (Some VALUE_NOT_REQUIRED) /\
    errors g !! "bar" = Some (Some "Required") /\
    isValid g = false.
Proof.
  eexists. split; [vm_compute; reflexivity |].
  split; [reflexivity |]. split; reflexivity.
Qed.

(* ------------------------------------------------------------------ *)
(** ** The validation engine *)
(* ------------------------------------------------------------------ *)

Lemma rule_passes_failure x v :
  rule_passes x v <-> failure (invoke v x) = None.
Proof.
  split.
  - intros [test H | call message H]; simpl; rewrite H; reflexivity.
  - destruct v as [test | call]; simpl.
    + destruct (test x) eqn:E; [intros _; now constructor | discriminate].
    + destruct (call x) as [[] message] eqn:E; [intros _ | discriminate].
      econstructor; eassumption.
Qed.

Lemma or_default_generic message :
  message = None \/ message = Some "" ->
  or_default message VALUE_NOT_VALID = VALUE_NOT_VALID.
Proof. intros [-> | ->]; reflexivity. Qed.

Lemma rule_fails_failure x v message :
  rule_fails x v message <-> failure (invoke v x) = Some message.
Proof.
  split.
  - intros [test H | call m H Hm | call m H Hm]; simpl; rewrite H; simpl.
    + reflexivity.
    + rewrite bool_decide_eq_false_2; auto.
    + f_equal. apply or_default_generic in Hm. exact Hm.
  - destruct v as [test | call]; simpl.
    + destruct (test x) eqn:E; [discriminate |].
      intros [= <-]. now constructor.
    + destruct (call x) as [[] m] eqn:E; [discriminate |].
      intros [= <-]. destruct m as [s |]; simpl.
      * destruct (decide (s = "")) as [-> | Hs].
        -- rewrite bool_decide_eq_true_2 by reflexivity.
           eapply callable_fails_generic; eauto.
        -- rewrite bool_decide_eq_false_2 by assumption.
           eapply callable_fails_message; eauto.
      * eapply callable_fails_generic; eauto.
Qed.

Lemma run_validation_all_pass rules x :
  Forall (rule_passes x) rules -> run_validation rules x = (rules, None).
Proof.
  induction 1 as [| v rest Hv _ IH]; simpl; [reflexivity |].
  apply rule_passes_failure in Hv. rewrite Hv, IH. reflexivity.
Qed.

Lemma run_validation_first_failure before v after x message :
  Forall (rule_passes x) before ->
  failure (invoke v x) = Some message ->
  run_validation (before ++ v :: after) x = (before ++ [v], Some message).
Proof.
  intros Hb Hv. induction Hb as [| w rest Hw _ IH]; simpl.
  - rewrite Hv. reflexivity.
  - apply rule_passes_failure in Hw. rewrite Hw, IH. reflexivity.
Qed.

(** The loop either passes every rule, or stops at the first failing one. *)
Lemma run_validation_inv rules x tr e :
  run_validation rules x = (tr, e) ->
  (e = None /\ tr = rules /\ Forall (rule_passes x) rules) \/
  (exists before v after message,
      rules = before ++ v :: after /\ Forall (rule_passes x) before /\
      failure (invoke v x) = Some message /\
      tr = before ++ [v] /\ e = Some message).
Proof.
  revert tr e. induction rules as [| v rest IH]; simpl; intros tr e H.
  - injection H as <- <-. left. auto.
  - destruct (failure (invoke v x)) as [message |] eqn:Hv.
    + injection H as <- <-. right. exists [], v, rest, message. auto.
    + destruct (run_validation rest x) as [tr' e'] eqn:Hr.
      injection H as <- <-.
      apply rule_passes_failure in Hv.
      destruct (IH _ _ eq_refl) as [(-> & -> & Hall) | (b & w & a & m & -> & Hb & Hw & -> & ->)].
      * left. auto.
      * right. exists (v :: b), w, a, m. auto.
Qed.

Lemma required_check_true t :
  required_check t = true <-> isRequired t = true /\ isEmpty (value t) = true.
Proof. unfold required_check. apply andb_true_iff. Qed.

Lemma required_check_false t :
  required_check t = false <-> ~ (isRequired t = true /\ isEmpty (value t) = true).
Proof.
  rewrite <- required_check_true. destruct (required_check t); split; easy.
Qed.

Lemma check_rules t :
  required_check t = false ->
  check t = run_validation (validation t) (value t).
Proof.
  intros H. unfold check. rewrite H.
  destruct (validation t); reflexivity.
Qed.

Lemma evaluation_check t tr e : evaluation t tr e <-> check t = (tr, e).
Proof.
  split.
  - intros [Hr He | before v after message Hn Hv Hb Hf | Hn Hall].
    + unfold check. rewrite (proj2 (required_check_true t)) by auto.
      destruct (requiredMessage t); reflexivity.
    + apply required_check_false in Hn. rewrite check_rules, Hv by assumption.
      apply run_validation_first_failure; [assumption |].
      now apply rule_fails_failure.
    + apply required_check_false in Hn. rewrite check_rules by assumption.
      now apply run_validation_all_pass.
  - destruct (required_check t) eqn:Hr.
    + unfold check. rewrite Hr. intros [= <- <-].
      apply required_check_true in Hr as [H1 H2].
      replace (nullish_default (requiredMessage t) VALUE_NOT_REQUIRED)
        with (match requiredMessage t with
              | Some message => message | None => VALUE_NOT_REQUIRED end)
        by (destruct (requiredMessage t); reflexivity).
      now constructor.
    + rewrite check_rules by assumption. intros H.
      apply required_check_false in Hr.
      apply run_validation_inv in H
        as [(-> & -> & Hall) | (b & v & a & m & Hv & Hb & Hf & -> & ->)].
      * now constructor.
      * eapply eval_rule_fails; eauto. now apply rule_fails_failure.
Qed.

(** C1. [validateField] evaluates in the order of section 4.2 and stops
    at the first failure: the rules it invokes and the error it computes
    are exactly those of [evaluation] (no rule when the required check
    fails; otherwise the rules in list order up to and including the
    first failing one, with that rule's message, the generic one for a
    pattern; every rule and no error when none fails), and that error is
    what it assigns to [errors[key]], whether the target is passed or read
    from [this[key]]. *)
Theorem validateField_order (k : string) (t : FieldSource) (f : Form) :
  evaluation t (invoked t) (verdict t) /\
  (forall tr e, evaluation t tr e -> tr = invoked t /\ e = verdict t) /\
  validateField k (Some t) f = Normal (setErrors k (verdict t) f) /\
  validateField k None (with_member k (MField t) f)
    = Normal (setErrors k (verdict t) (with_member k (MField t) f)) /\
  _errors (setErrors k (verdict t) f) !! k = Some (verdict t).
Proof.
  split; [| split; [| split; [| split]]].
  - apply evaluation_check. unfold invoked, verdict.
    destruct (check t); reflexivity.
  - intros tr e H. apply evaluation_check in H.
    unfold invoked, verdict. now rewrite H.
  - reflexivity.
  - unfold validateField, with_member. simpl.
    rewrite lookup_insert_eq. reflexivity.
  - simpl. apply lookup_insert_eq.
Qed.

Lemma isEmpty_lodash v : isEmpty v = true <-> lodash_empty v.
Proof.
  split.
  - destruct v as [| | b | n | s | items | entries]; simpl; intros H.
    + apply empty_listed, listed_undefined.
    + apply empty_listed, listed_null.
    + apply empty_boolean.
    + apply empty_number.
    + apply bool_decide_eq_true in H as ->.
      apply empty_listed, listed_empty_string.
    + destruct items; [apply empty_listed, listed_empty_array | discriminate].
    + destruct entries; [apply empty_listed, listed_empty_object | discriminate].
  - intros [v' [] | n | b]; reflexivity.
Qed.

(** The claim of C2 fails on a required field that holds a number:
    [isEmpty(42)] is [true], so the required check fails and the error is
    the generic required message, although 42 is none of undefined, null,
    the empty string or an empty container. *)
Lemma required_number_counterexample :
  isRequired age_field = true /\
  required_check age_field = true /\
  ~ listed_empty (value age_field) /\
  validateField "age" (Some age_field) (new_Form "k3x9q0a1z")
    = Normal (setErrors "age" (Some VALUE_NOT_REQUIRED) (new_Form "k3x9q0a1z")).
Proof.
  split; [reflexivity |]. split; [reflexivity |]. split; [| reflexivity].
  simpl. inversion 1.
Qed.

(** C2 (amended). For a field with [isRequired = true] the required check
    fails exactly when [isEmpty] holds of the value, that is when the
    value is undefined, null, the empty string, an empty container, or any
    number or boolean; when it fails no rule is invoked and the error is
    the custom [requiredMessage] if provided, else the generic required
    message, whatever the validation rules are. *)
Theorem required_check_exact (k : string) (t : FieldSource) (f : Form) :
  isRequired t = true ->
  (required_check t = true <-> lodash_empty (value t)) /\
  (lodash_empty (value t) ->
     invoked t = [] /\
     validateField k (Some t) f
       = Normal (setErrors k
                   (Some (match requiredMessage t with
                          | Some message => message
                          | None => VALUE_NOT_REQUIRED
                          end)) f)).
Proof.
  intros Hreq.
  assert (Hiff : required_check t = true <-> lodash_empty (value t)).
  { rewrite required_check_true, isEmpty_lodash. tauto. }
  split; [exact Hiff |].
  intros He. apply Hiff in He.
  unfold validateField, invoked, verdict, check. rewrite He. simpl.
  destruct (requiredMessage t); auto.
Qed.

Lemma required_check_exact_witness :
  isRequired age_field = true /\
  ((required_check age_field = true <-> lodash_empty (value age_field)) /\
   (lodash_empty (value age_field) ->
      invoked age_field = [] /\
      validateField "age" (Some age_field) (new_Form "k3x9q0a1z")
        = Normal (setErrors "age"
                    (Some (match requiredMessage age_field with
                           | Some message => message
                           | None => VALUE_NOT_REQUIRED
                           end)) (new_Form "k3x9q0a1z")))).
Proof.
  split; [reflexivity |].
  apply (required_check_exact "age" age_field (new_Form "k3x9q0a1z")).
  reflexivity.
Defined.

(* ------------------------------------------------------------------ *)
(** ** isValid *)
(* ------------------------------------------------------------------ *)

Lemma isValid_true f :
  isValid f = true <-> (forall k e, _errors f !! k = Some e -> e = None).
Proof.
  unfold isValid. rewrite forallb_forall. split.
  - intros H k e Hk.
    eapply bool_decide_eq_true_1, H, list_elem_of_In, list_elem_of_fmap.
    exists (k, e). split; [reflexivity |].
    now apply elem_of_map_to_list.
  - intros H e Hin. apply list_elem_of_In, list_elem_of_fmap in Hin
      as ([k e'] & -> & Hin).
    apply elem_of_map_to_list in Hin. apply bool_decide_eq_true_2. eauto.
Qed.

Lemma isValid_false f k message :
  _errors f !! k = Some (Some message) -> isValid f = false.
Proof.
  intros H. destruct (isValid f) eqn:E; [| reflexivity].
  rewrite isValid_true in E. apply E in H. discriminate.
Qed.

(** C6. [isValid] is true if and only if every entry of the errors map is
    undefined, and it is computed from the errors map alone: it runs no
    validation (two objects with the same errors map have the same
    [isValid], whatever their fields hold) and, being a read of
    [this._errors], it leaves the object as it is. *)
Theorem isValid_reads_errors (f : Form) :
  (isValid f = true <-> forall k e, errors f !! k = Some e -> e = None) /\
  (forall g, errors g = errors f -> isValid g = isValid f).
Proof.
  split; [apply isValid_true |].
  intros g H. unfold isValid. unfold errors in H. now rewrite H.
Qed.

(* ------------------------------------------------------------------ *)
(** ** Messages that are absent or empty *)
(* ------------------------------------------------------------------ *)

(** C10. When the first failing rule is a callable whose returned message
    is falsy (undefined or the empty string), the error assigned is the
    generic 'Value is not valid.'; for the required check only an absent
    [requiredMessage] gives the generic required message, and an
    empty-string [requiredMessage] is assigned as it is, so that
    [errors[key]] is the empty string and [isValid] is false. *)
Theorem falsy_message_defaults (k : string) (t : FieldSource) (f : Form) :
  (forall before call after message,
      required_check t = false ->
      validation t = before ++ CustomFunc call :: after ->
      Forall (rule_passes (value t)) before ->
      call (value t) = (false, message) ->
      message = None \/ message = Some "" ->
      validateField k (Some t) f
        = Normal (setErrors k (Some VALUE_NOT_VALID) f)) /\
  (required_check t = true ->
     (requiredMessage t = None ->
        validateField k (Some t) f
          = Normal (setErrors k (Some VALUE_NOT_REQUIRED) f)) /\
     (requiredMessage t = Some "" ->
        validateField k (Some t) f = Normal (setErrors k (Some "") f) /\
        errors (setErrors k (Some "") f) !! k = Some (Some "") /\
        isValid (setErrors k (Some "") f) = false)).
Proof.
  split.
  - intros before call after message Hr Hv Hb Hc Hm.
    assert (H : check t = (before ++ [CustomFunc call], Some VALUE_NOT_VALID)).
    { apply evaluation_check. apply required_check_false in Hr.
      eapply eval_rule_fails; eauto.
      eapply callable_fails_generic; eauto. }
    unfold validateField, verdict. now rewrite H.
  - intros Hr. unfold validateField, verdict, check. rewrite Hr.
    split; intros ->; simpl; [reflexivity |].
    split; [reflexivity |].
    assert (H : _errors (setErrors k (Some "") f) !! k = Some (Some ""))
      by apply lookup_insert_eq.
    split; [exact H |]. eapply isValid_false, H.
Qed.

Lemma falsy_message_defaults_witness :
  validateField "nickname" (Some nickname_field) fooForm
    = Normal (setErrors "nickname" (Some VALUE_NOT_VALID) fooForm) /\
  validateField "name" (Some name_field) fooForm
    = Normal (setErrors "name" (Some "") fooForm) /\
  isValid (setErrors "name" (Some "") fooForm) = false.
Proof.
  split.
  - apply (proj1 (falsy_message_defaults "nickname" nickname_field fooForm)
             [] (fun _ => (false, Some "")) [] (Some ""));
      [reflexivity | reflexivity | constructor | reflexivity | right; reflexivity].
  - pose proof (proj2 (falsy_message_defaults "name" name_field fooForm)
                  eq_refl) as [_ H].
    destruct (H eq_refl) as (H1 & _ & H3). split; assumption.
Defined.

(* ------------------------------------------------------------------ *)
(** ** Registration *)
(* ------------------------------------------------------------------ *)

Lemma generateField_missing o w f :
  Options.key o = None \/ Options.key o = Some "" ->
  generateField o w f = Throws (Error KEY_NOT_EXISTS) f.
Proof. unfold generateField. intros [-> | ->]; reflexivity. Qed.

Lemma generateField_given o w f k :
  Options.key o = Some k -> k <> "" ->
  generateField o w f =
    let f2 := setInitialValue k (initialValue_of k o)
                (setErrors k None (setTouched k false (addKey k f))) in
    Normal (if w then f2 else setErrors k (verdict (initialValue_of k o)) f2,
            initialValue_of k o).
Proof.
  intros Hk Hne. unfold generateField. rewrite Hk.
  rewrite bool_decide_eq_false_2 by assumption.
  destruct w; reflexivity.
Qed.

(** C8. [generateField] throws the registration error ('Key should
    exists.') if and only if the [key] option is absent or the empty
    string, whatever the other options are; it then leaves the object as it
    was (the throw precedes every change of the registry); and with a
    non-empty key it returns normally. *)
Theorem generateField_throws_iff (o : Options.t) (w : bool) (f : Form) :
  (Options.key o = None \/ Options.key o = Some ""
     <-> generateField o w f = Throws (Error KEY_NOT_EXISTS) f) /\
  ((exists k, Options.key o = Some k /\ k <> "")
     <-> exists f' fld, generateField o w f = Normal (f', fld)) /\
  (forall e g, generateField o w f = Throws e g ->
     e = Error KEY_NOT_EXISTS /\ g = f) /\
  generateField o w f <> Escapes.
Proof.
  destruct (Options.key o) as [k |] eqn:Hk.
  - destruct (decide (k = "")) as [-> | Hne].
    + rewrite (generateField_missing o w f) by auto.
      repeat split; try (intros; auto; fail); try discriminate.
      * intros (k & [= <-] & Hne). now destruct Hne.
      * intros (? & ? & ?). discriminate.
      * congruence.
      * congruence.
    + rewrite (generateField_given o w f k Hk Hne). simpl.
      repeat split; try discriminate.
      * intros [? | [= ->]]; [discriminate | now destruct Hne].
      * intros _. eauto.
      * intros _. eauto.
  - rewrite (generateField_missing o w f) by auto.
    repeat split; try (intros; auto; fail); try discriminate.
    + intros (k & ? & _). discriminate.
    + intros (? & ? & ?). discriminate.
    + congruence.
    + congruence.
Qed.

(** C9. For every call of [generateField] with a non-empty key, when
    [options.value] is absent, undefined or null the returned field's value
    and the stored initial value are the empty string; any other value
    (0, false and empty containers included) is stored unchanged. *)
Theorem generateField_value_default
    (o : Options.t) (w : bool) (f : Form) (k : string) :
  Options.key o = Some k -> k <> "" ->
  exists f' fld,
    generateField o w f = Normal (f', fld) /\
    initialValues f' !! k = Some fld /\
    (Options.value o = None \/ Options.value o = Some VUndefined \/
     Options.value o = Some VNull -> value fld = VStr "") /\
    (forall x, Options.value o = Some x -> x <> VUndefined -> x <> VNull ->
       value fld = x).
Proof.
  intros Hk Hne. rewrite (generateField_given o w f k Hk Hne). simpl.
  eexists _, _. split; [reflexivity |]. split.
  - unfold initialValues. destruct w; simpl; apply lookup_insert_eq.
  - simpl. split.
    + intros [-> | [-> | ->]]; reflexivity.
    + intros x -> H1 H2. destruct x; simpl; congruence.
Qed.

Lemma generateField_value_default_witness :
  exists f' fld,
    generateField count_options false (new_Form "k3x9q0a1z") = Normal (f', fld) /\
    initialValues f' !! "count" = Some fld /\
    (Options.value count_options = None \/
     Options.value count_options = Some VUndefined \/
     Options.value count_options = Some VNull -> value fld = VStr "") /\
    (forall x, Options.value count_options = Some x ->
       x <> VUndefined -> x <> VNull -> value fld = x).
Proof.
  apply (generateField_value_default count_options false
           (new_Form "k3x9q0a1z") "count"); [reflexivity | discriminate].
Defined.

(* ------------------------------------------------------------------ *)
(** ** What each method may change *)
(* ------------------------------------------------------------------ *)

Lemma touches_only_refl S f : touches_only S f f.
Proof. repeat split. Qed.

Lemma touches_only_trans S f g h :
  touches_only S f g -> touches_only S g h -> touches_only S f h.
Proof.
  intros (K1 & I1 & T1 & E1) (K2 & I2 & T2 & E2). repeat split.
  - congruence.
  - congruence.
  - intros j Hj. rewrite T2, T1; auto.
  - intros j Hj. rewrite E2, E1; auto.
Qed.

Lemma touches_only_mono (S S' : string -> Prop) f g :
  (forall j, S j -> S' j) -> touches_only S f g -> touches_only S' f g.
Proof.
  intros HS (K & I & T & E). repeat split; auto.
Qed.

Lemma touches_only_setTouched k b f : touches_only (eq k) f (setTouched k b f).
Proof.
  repeat split. simpl. intros j Hj. now apply lookup_insert_ne.
Qed.

Lemma touches_only_setErrors k e f : touches_only (eq k) f (setErrors k e f).
Proof.
  repeat split. simpl. intros j Hj. now apply lookup_insert_ne.
Qed.

Lemma touches_only_with_member S k m f : touches_only S f (with_member k m f).
Proof. repeat split. Qed.

Lemma assign_state k m f g :
  state_after (assign k m f) = Some g ->
  g = f \/ ((k ∉ class_members) /\ g = with_member k m f).
Proof.
  unfold assign, overwrite_member. case_bool_decide as Hc.
  - case_bool_decide; simpl; [intros [= <-]; auto | discriminate].
  - simpl. intros [= <-]. right. auto.
Qed.

Lemma assign_Normal k m f g :
  assign k m f = Normal g -> (k ∉ class_members) /\ g = with_member k m f.
Proof.
  unfold assign, overwrite_member. case_bool_decide as Hc.
  - case_bool_decide; discriminate.
  - intros [= <-]. auto.
Qed.

Lemma assign_not_member k m f :
  k ∉ class_members -> assign k m f = Normal (with_member k m f).
Proof.
  intros H. unfold assign. now rewrite bool_decide_eq_false_2.
Qed.

Lemma overwrite_member_state k f g :
  state_after (overwrite_member k f) = Some g -> g = f.
Proof.
  unfold overwrite_member. case_bool_decide; simpl; congruence.
Qed.

Lemma validateField_state k t f g :
  state_after (validateField k t f) = Some g ->
  g = f \/ exists e, g = setErrors k e f.
Proof.
  unfold validateField. destruct t as [t |]; simpl.
  - intros [= <-]. eauto.
  - destruct (props f !! k) as [m |].
    + destruct (check_member m); simpl; [| | discriminate]; intros [= <-]; eauto.
    + case_bool_decide; simpl; [discriminate |]. intros [= <-]. auto.
Qed.

Lemma not_awaited_validateField_state k t f g :
  state_after (not_awaited (validateField k t f) f) = Some g ->
  g = f \/ exists e, g = setErrors k e f.
Proof.
  destruct (validateField k t f) as [f1 | e f1 |] eqn:Hv; simpl;
    [| intros [= <-]; auto | discriminate].
  intros [= <-]. apply (validateField_state k t f). now rewrite Hv.
Qed.

Lemma touches_only_validateField k t f g :
  state_after (validateField k t f) = Some g ->
  touches_only (eq k) f g /\ props g = props f.
Proof.
  intros H. apply validateField_state in H as [-> | [e ->]].
  - split; [apply touches_only_refl | reflexivity].
  - split; [apply touches_only_setErrors | reflexivity].
Qed.

(** What [update] does for one change. *)
Lemma update_key_state w k x f g :
  state_after (update_key w (k, x) f) = Some g ->
  g = f \/
  (has_property f k = true /\ (k ∉ class_members) /\
   exists m, props f !! k = Some m /\
     let f2 := setTouched k true (with_member k (spread_with_value m x) f) in
     (g = f2 \/ exists e, g = setErrors k e f2)).
Proof.
  unfold update_key. destruct (has_property f k) eqn:Hp;
    [| simpl; intros [= <-]; auto].
  destruct (props f !! k) as [m |] eqn:Hm.
  - destruct (assign k (spread_with_value m x) f) as [f1 | e f1 |] eqn:Ha;
      simpl; [| | discriminate].
    + apply assign_Normal in Ha as [Hc ->].
      intros H. right. split; [reflexivity |]. split; [assumption |].
      exists m. split; [reflexivity |]. simpl.
      destruct w; simpl in H.
      * injection H as <-. auto.
      * apply not_awaited_validateField_state in H as [-> | [e ->]]; eauto.
    + intros [= <-]. left.
      assert (H : state_after (assign k (spread_with_value m x) f) = Some f1)
        by now rewrite Ha.
      apply assign_state in H as [-> | [Hc ->]]; [reflexivity |].
      rewrite assign_not_member in Ha by assumption. discriminate.
  - intros H. left.
    destruct (overwrite_member k f) as [f1 | e f1 |] eqn:Ho; simpl in H.
    + unfold overwrite_member in Ho. case_bool_decide; discriminate.
    + injection H as <-. apply (overwrite_member_state k f). now rewrite Ho.
    + discriminate.
Qed.

Lemma touches_only_update_key w k x f g :
  state_after (update_key w (k, x) f) = Some g ->
  touches_only (fun j => j = k /\ has_property f k = true) f g /\
  (forall j, is_Some (props g !! j) <-> is_Some (props f !! j)).
Proof.
  intros H. apply update_key_state in H
    as [-> | (Hp & Hc & m & Hm & [-> | [e ->]])].
  - split; [apply touches_only_refl | reflexivity].
  - split.
    + repeat split. simpl. intros j Hj. apply lookup_insert_ne.
      intros <-. auto.
    + intros j. simpl. destruct (decide (k = j)) as [<- | Hne].
      * rewrite lookup_insert_eq, Hm. split; eauto.
      * now rewrite lookup_insert_ne.
  - split.
    + repeat split; simpl; intros j Hj; apply lookup_insert_ne; intros <-; auto.
    + intros j. simpl. destruct (decide (k = j)) as [<- | Hne].
      * rewrite lookup_insert_eq, Hm. split; eauto.
      * now rewrite lookup_insert_ne.
Qed.

Lemma has_property_props f g :
  (forall j, is_Some (props g !! j) <-> is_Some (props f !! j)) ->
  forall j, has_property g j = has_property f j.
Proof.
  intros H j. unfold has_property. f_equal.
  apply bool_decide_ext, H.
Qed.

(** A loop whose body keeps a relation to the first object keeps it. *)
Lemma forEach_state {A : Type} (R : Form -> Form -> Prop)
    (body : A -> Form -> Completion Form) (l : list A) :
  (forall f, R f f) ->
  (forall f g h, R f g -> R g h -> R f h) ->
  (forall a f g, a ∈ l -> state_after (body a f) = Some g -> R f g) ->
  forall f g, state_after (forEach body l f) = Some g -> R f g.
Proof.
  intros Hrefl Htrans. induction l as [| a rest IH]; intros Hbody f g; simpl.
  - intros [= <-]. apply Hrefl.
  - destruct (body a f) as [f1 | e f1 |] eqn:Hb; simpl; [| | discriminate].
    + intros H. apply Htrans with f1.
      * apply (Hbody a); [left | now rewrite Hb].
      * apply IH; [| assumption]. intros b f' g' Hin. apply Hbody. now right.
    + intros [= <-]. apply (Hbody a); [left | now rewrite Hb].
Qed.

(* ------------------------------------------------------------------ *)
(** ** update and keys that are not fields *)
(* ------------------------------------------------------------------ *)

Lemma update_key_not_property w k x f :
  has_property f k = false -> update_key w (k, x) f = Normal f.
Proof. intros H. unfold update_key. now rewrite H. Qed.

Lemma not_in_keys (k : string) (l : list string) :
  bool_decide (k ∈ l) = false -> k ∉ l.
Proof. apply bool_decide_eq_false_1. Qed.

(** The claim of C3 fails on keys that are properties of the object
    without being registered fields.  On the [FooForm] of the test suite,
    [update({__identifier: 'x'})] replaces the identifier, marks the key
    touched and gives it an entry in [errors]; [update({isValid: true})]
    throws a TypeError, [isValid] being an accessor without a setter. *)
Lemma update_unregistered_counterexample :
  ("__identifier" ∉ keys fooForm) /\
  update [("__identifier", VStr "x")] false fooForm
    = Normal (setErrors "__identifier" None
                (setTouched "__identifier" true
                   (with_member "__identifier" (MOther spread_identifier)
                      fooForm))) /\
  touched fooForm !! "__identifier" = None /\
  errors fooForm !! "__identifier" = None /\
  __id fooForm = Some (MOther (VStr "k3x9q0a1z")) /\
  __id (with_member "__identifier" (MOther spread_identifier) fooForm)
    = Some (MOther spread_identifier) /\
  ("isValid" ∉ keys fooForm) /\
  update [("isValid", VBool true)] false fooForm = Throws TypeError fooForm.
Proof.
  split; [apply not_in_keys; reflexivity |].
  split; [vm_compute; reflexivity |].
  split; [reflexivity |]. split; [reflexivity |].
  split; [reflexivity |]. split; [reflexivity |].
  split; [apply not_in_keys; reflexivity |].
  vm_compute; reflexivity.
Qed.

(** C3 (amended). For every change key that is not a property of the Form
    object ([key in this] is false: neither an own property such as a
    declared field nor a member of the class), [update] is a silent no-op
    for that key: alone it returns normally with the object unchanged, and
    among other changes it can be left out. *)
Theorem update_ignores_non_property
    (f : Form) (k : string) (x : JsVal) (w : bool) :
  has_property f k = false ->
  update [(k, x)] w f = Normal f /\
  (forall before after,
     update (before ++ (k, x) :: after) w f = update (before ++ after) w f).
Proof.
  intros Hk. split.
  - unfold update. simpl. now rewrite update_key_not_property.
  - intros before. revert f Hk.
    induction before as [| [k1 x1] rest IH]; intros f Hk after;
      unfold update in *; simpl.
    + now rewrite update_key_not_property.
    + destruct (update_key w (k1, x1) f) as [f1 | e f1 |] eqn:H1; simpl;
        [| reflexivity | reflexivity].
      apply IH.
      assert (H : state_after (update_key w (k1, x1) f) = Some f1)
        by now rewrite H1.
      apply touches_only_update_key in H as [_ Hd].
      now rewrite (has_property_props f f1 Hd).
Qed.

Lemma update_ignores_non_property_witness :
  has_property fooForm "baz" = false /\
  update [("baz", VStr "x")] false fooForm = Normal fooForm /\
  (forall before after,
     update (before ++ ("baz", VStr "x") :: after) false fooForm
       = update (before ++ after) false fooForm).
Proof.
  split; [reflexivity |].
  apply (update_ignores_non_property fooForm "baz" (VStr "x") false).
  reflexivity.
Defined.

(* ------------------------------------------------------------------ *)
(** ** The keys of touched and errors *)
(* ------------------------------------------------------------------ *)

Lemma registered_only_touches (S : string -> Prop) f g :
  registered_only f -> touches_only S f g ->
  (forall j, S j -> j ∈ keys f) -> registered_only g.
Proof.
  intros [HT HE] (K & _ & T & E) HS. rewrite <- K in *.
  split; intros k Hk; destruct (decide (k ∈ keys g)) as [| Hn]; auto;
    exfalso; apply Hn.
  - apply HT. rewrite <- T; [assumption |]. intros Hs. apply Hn, HS, Hs.
  - apply HE. rewrite <- E; [assumption |]. intros Hs. apply Hn, HS, Hs.
Qed.

Lemma registered_only_check f :
  bool_decide (map_Forall (fun k (_ : bool) => k ∈ keys f) (_touched f)) = true ->
  bool_decide (map_Forall (fun k (_ : option string) => k ∈ keys f) (_errors f))
    = true ->
  registered_only f.
Proof.
  intros HT%bool_decide_eq_true_1 HE%bool_decide_eq_true_1.
  split; intros k [v Hv]; [eapply HT | eapply HE]; eassumption.
Qed.

Lemma restore_state k f g :
  state_after (restore k f) = Some g ->
  g = f \/ ((k ∉ class_members) /\ exists m, g = with_member k m f).
Proof.
  unfold restore. destruct (_initialValues f !! k);
    intros [-> | [Hc ->]]%assign_state; eauto.
Qed.

Lemma touches_only_reset_key k f g :
  state_after (reset_key k f) = Some g -> touches_only (eq k) f g.
Proof.
  unfold reset_key. destruct (restore k f) as [f1 | e f1 |] eqn:Hr; simpl;
    [| | discriminate]; intros [= <-];
    assert (H : state_after (restore k f) = Some f1) by (now rewrite Hr);
    apply restore_state in H as [-> | [_ [m ->]]];
    try apply touches_only_refl; try apply touches_only_with_member.
  - eapply touches_only_trans;
      [apply touches_only_setTouched | apply touches_only_setErrors].
  - repeat split; simpl; intros j Hj; now apply lookup_insert_ne.
Qed.

Lemma touches_only_clear_key k f g :
  state_after (clear_key k f) = Some g -> touches_only (eq k) f g.
Proof.
  unfold clear_key. destruct (restore k f) as [f1 | e f1 |] eqn:Hr; simpl;
    [| | discriminate].
  - intros [-> | [e ->]]%not_awaited_validateField_state;
      assert (H : state_after (restore k f) = Some f1) by (now rewrite Hr);
      apply restore_state in H as [-> | [_ [m ->]]];
      try apply touches_only_setTouched;
      repeat split; simpl; intros j Hj; now apply lookup_insert_ne.
  - intros [= <-].
    assert (H : state_after (restore k f) = Some f1) by (now rewrite Hr).
    apply restore_state in H as [-> | [_ [m ->]]];
      [apply touches_only_refl | apply touches_only_with_member].
Qed.

Lemma touches_only_forEach_keys body (l : list string) f g :
  (forall k f g, state_after (body k f) = Some g -> touches_only (eq k) f g) ->
  state_after (forEach body l f) = Some g ->
  touches_only (fun j => j ∈ l) f g.
Proof.
  intros Hbody. revert f g.
  apply (forEach_state (touches_only (fun j => j ∈ l))).
  - apply touches_only_refl.
  - apply touches_only_trans.
  - intros k f g Hin H. eapply touches_only_mono; [| eapply Hbody, H].
    now intros j <-.
Qed.

Lemma touches_only_reset f g :
  state_after (reset f) = Some g -> touches_only (fun j => j ∈ keys f) f g.
Proof. apply touches_only_forEach_keys, touches_only_reset_key. Qed.

Lemma touches_only_clear f g :
  state_after (clear f) = Some g -> touches_only (fun j => j ∈ keys f) f g.
Proof. apply touches_only_forEach_keys, touches_only_clear_key. Qed.

Lemma touches_only_validate f g :
  state_after (validate f) = Some g -> touches_only (fun j => j ∈ keys f) f g.
Proof.
  apply touches_only_forEach_keys. intros k f' g' H.
  now apply touches_only_validateField in H.
Qed.

Lemma touches_only_untouch k f :
  touches_only (fun j => j = k /\ has_property f k = true) f (untouch k f).
Proof.
  unfold untouch. destruct (has_property f k) eqn:Hp.
  - eapply touches_only_mono; [| apply touches_only_setTouched].
    intros j <-. auto.
  - apply touches_only_refl.
Qed.

Lemma touches_only_untouch_list (l : list string) f :
  touches_only (fun j => j ∈ l) f (foldl (fun g k => setTouched k false g) f l).
Proof.
  revert f. induction l as [| k rest IH]; intros f; simpl.
  - apply touches_only_refl.
  - eapply touches_only_trans.
    + eapply touches_only_mono; [| apply (touches_only_setTouched k false)].
      intros j <-. left.
    + eapply touches_only_mono; [| apply IH]. intros j Hj. now right.
Qed.

Lemma touches_only_untouchAll f :
  touches_only (fun j => j ∈ keys f) f (untouchAll f).
Proof. apply touches_only_untouch_list. Qed.

Lemma touches_only_update changes w f g :
  state_after (update changes w f) = Some g ->
  touches_only
    (fun j => has_property f j = true /\ exists x, (j, x) ∈ changes) f g /\
  (forall j, is_Some (props g !! j) <-> is_Some (props f !! j)).
Proof.
  unfold update. revert f g. induction changes as [| [k x] rest IH];
    intros f g; simpl.
  - intros [= <-]. split; [apply touches_only_refl | reflexivity].
  - destruct (update_key w (k, x) f) as [f1 | e f1 |] eqn:H1; simpl;
      [| | discriminate];
      assert (H : state_after (update_key w (k, x) f) = Some f1)
        by (now rewrite H1);
      apply touches_only_update_key in H as [Ht Hd].
    + intros [Ht' Hd']%IH. split.
      * eapply touches_only_trans.
        -- eapply touches_only_mono; [| exact Ht].
           intros j [-> Hp]. split; [assumption |]. exists x. left.
        -- eapply touches_only_mono; [| exact Ht'].
           intros j [Hp [y Hy]]. split.
           ++ now rewrite <- (has_property_props f f1 Hd).
           ++ exists y. now right.
      * intros j. now rewrite Hd', Hd.
    + intros [= <-]. split; [| assumption].
      eapply touches_only_mono; [| exact Ht].
      intros j [-> Hp]. split; [assumption |]. exists x. left.
Qed.

Lemma generateField_Normal o w f f' fld :
  generateField o w f = Normal (f', fld) ->
  exists k, Options.key o = Some k /\ k <> "" /\ fld = initialValue_of k o /\
    f' = let f2 := setInitialValue k fld
                     (setErrors k None (setTouched k false (addKey k f))) in
         if w then f2 else setErrors k (verdict fld) f2.
Proof.
  destruct (Options.key o) as [k |] eqn:Hk.
  - destruct (decide (k = "")) as [-> | Hne].
    + rewrite generateField_missing by auto. discriminate.
    + rewrite (generateField_given o w f k Hk Hne). simpl. intros [= <- <-].
      exists k. auto.
  - rewrite generateField_missing by auto. discriminate.
Qed.

Lemma keys_addKey k f j : j ∈ keys (addKey k f) <-> j ∈ keys f \/ j = k.
Proof.
  unfold addKey. case_bool_decide as Hin; simpl.
  - split; [auto | intros [? | ->]; assumption].
  - rewrite elem_of_app, list_elem_of_singleton. reflexivity.
Qed.

Lemma registered_only_generateField o w f f' fld :
  registered_only f -> generateField o w f = Normal (f', fld) ->
  registered_only f'.
Proof.
  intros [HT HE] (k & _ & _ & _ & ->)%generateField_Normal.
  destruct w; simpl; split; intros j [v Hv]; apply keys_addKey;
    simpl in Hv; destruct (decide (k = j)) as [<- | Hne]; auto; left;
    repeat (rewrite lookup_insert_ne in Hv by assumption);
    unfold addKey in Hv; case_bool_decide; simpl in Hv; eauto.
Qed.

Lemma registered_only_fooForm : registered_only fooForm.
Proof. apply registered_only_check; vm_compute; reflexivity. Qed.

(** The claim of C5 fails for [untouch] and [update]: their guard is
    [key in this], not membership in the key list.  On the [FooForm] of
    the test suite, whose maps hold registered keys only,
    [untouch('keys')] adds the key 'keys' to [touched], and
    [update({__identifier: 'x'})] adds the key '__identifier' to [touched]
    and to [errors]; neither key is registered. *)
Lemma registered_only_counterexample :
  registered_only fooForm /\
  keys (untouch "keys" fooForm) = ["foo"; "bar"] /\
  touched (untouch "keys" fooForm) !! "keys" = Some false /\
  ~ registered_only (untouch "keys" fooForm) /\
  exists g,
    update [("__identifier", VStr "x")] false fooForm = Normal g /\
    keys g = ["foo"; "bar"] /\
    touched g !! "__identifier" = Some true /\
    errors g !! "__identifier" = Some None /\
    ~ registered_only g.
Proof.
  split; [apply registered_only_fooForm |].
  split; [reflexivity |]. split; [reflexivity |]. split.
  - intros [HT _]. specialize (HT "keys" (ex_intro _ false eq_refl)).
    revert HT. apply not_in_keys. reflexivity.
  - eexists. split; [vm_compute; reflexivity |].
    split; [reflexivity |]. split; [reflexivity |]. split; [reflexivity |].
    intros [HT _]. specialize (HT "__identifier" (ex_intro _ true eq_refl)).
    revert HT. apply not_in_keys. reflexivity.
Qed.

(** C5 (amended). When every key of [touched] and of [errors] is
    registered, it is still so after [generateField], [untouchAll],
    [reset], [clear] and [validate], which write these maps at registered
    keys only; [untouch] and [update] write them at the keys they are given
    that are properties of the object ([key in this]), so they keep the
    invariant whenever each such key is registered. *)
Theorem registered_only_preserved (f : Form) :
  registered_only f ->
  (forall o w f' fld,
     generateField o w f = Normal (f', fld) -> registered_only f') /\
  registered_only (untouchAll f) /\
  (forall f', state_after (reset f) = Some f' -> registered_only f') /\
  (forall f', state_after (clear f) = Some f' -> registered_only f') /\
  (forall f', state_after (validate f) = Some f' -> registered_only f') /\
  (forall k, (has_property f k = true -> k ∈ keys f) ->
     registered_only (untouch k f)) /\
  (forall changes w f',
     (forall k x, (k, x) ∈ changes -> has_property f k = true -> k ∈ keys f) ->
     state_after (update changes w f) = Some f' -> registered_only f').
Proof.
  intros Hf.
  split; [| split; [| split; [| split; [| split; [| split]]]]].
  - intros o w f' fld. now apply registered_only_generateField.
  - eapply registered_only_touches;
      [exact Hf | apply touches_only_untouchAll | auto].
  - intros f' H. eapply registered_only_touches;
      [exact Hf | apply touches_only_reset, H | auto].
  - intros f' H. eapply registered_only_touches;
      [exact Hf | apply touches_only_clear, H | auto].
  - intros f' H. eapply registered_only_touches;
      [exact Hf | apply touches_only_validate, H | auto].
  - intros k Hk. eapply registered_only_touches;
      [exact Hf | apply touches_only_untouch |].
    intros j [-> Hp]. auto.
  - intros changes w f' Hc H. apply touches_only_update in H as [H _].
    eapply registered_only_touches; [exact Hf | exact H |].
    intros j [Hp [x Hx]]. eauto.
Qed.

Lemma registered_only_preserved_witness :
  registered_only fooForm /\
  registered_only (untouchAll fooForm) /\
  registered_only (untouch "foo" fooForm) /\
  (forall f', state_after (reset fooForm) = Some f' -> registered_only f') /\
  (forall f', state_after (update [("foo", VStr "abcd")] false fooForm) = Some f' ->
     registered_only f').
Proof.
  pose proof (registered_only_preserved fooForm registered_only_fooForm)
    as (_ & HuA & Hr & _ & _ & Hu & Hup).
  split; [apply registered_only_fooForm |].
  split; [exact HuA |]. split.
  - apply Hu. intros _. apply (bool_decide_eq_true_1 _). reflexivity.
  - split; [exact Hr |]. intros f'. apply Hup.
    intros k x Hin _. apply list_elem_of_singleton in Hin.
    injection Hin as -> _.
    apply (bool_decide_eq_true_1 _). reflexivity.
Defined.

(* ------------------------------------------------------------------ *)
(** ** reset and clear *)
(* ------------------------------------------------------------------ *)

Lemma reset_key_Normal k init f :
  k ∉ class_members -> _initialValues f !! k = Some init ->
  reset_key k f
    = Normal (setErrors k None
                (setTouched k false (with_member k (MField init) f))).
Proof.
  intros Hc Hi. unfold reset_key, restore.
  rewrite Hi, assign_not_member by assumption. reflexivity.
Qed.

Lemma clear_key_Normal k init f :
  k ∉ class_members -> _initialValues f !! k = Some init ->
  clear_key k f
    = Normal (setErrors k (verdict init)
                (setTouched k false (with_member k (MField init) f))).
Proof.
  intros Hc Hi. unfold clear_key, restore.
  rewrite Hi, assign_not_member by assumption. simpl. rewrite Hi.
  reflexivity.
Qed.

(** The two loops run side by side from objects that agree on everything
    but their errors. *)
Lemma reset_clear_loop (l : list string) :
  forall g1 g2,
    same_but_errors g1 g2 ->
    (forall k, k ∈ l -> (k ∉ class_members) /\ is_Some (_initialValues g1 !! k)) ->
    exists r c,
      forEach reset_key l g1 = Normal r /\
      forEach clear_key l g2 = Normal c /\
      same_but_errors r c /\
      (forall k, k ∈ l ->
         exists init,
           _initialValues g1 !! k = Some init /\
           props r !! k = Some (MField init) /\
           _touched r !! k = Some false /\
           _errors r !! k = Some None /\
           _errors c !! k = Some (verdict init)) /\
      (forall j, j ∉ l ->
         props r !! j = props g1 !! j /\ _touched r !! j = _touched g1 !! j /\
         _errors r !! j = _errors g1 !! j /\ _errors c !! j = _errors g2 !! j).
Proof.
  induction l as [| k rest IH]; intros g1 g2 Hag Hl.
  - exists g1, g2. simpl. split; [reflexivity |]. split; [reflexivity |].
    split; [exact Hag |]. split; [| auto].
    intros k Hk. inversion Hk.
  - destruct (Hl k) as [Hc [init Hi]]; [left |].
    destruct Hag as (K & I & T & P).
    assert (Hi2 : _initialValues g2 !! k = Some init) by now rewrite <- I.
    simpl. rewrite (reset_key_Normal k init g1 Hc Hi).
    rewrite (clear_key_Normal k init g2 Hc Hi2). simpl.
    set (g1' := setErrors k None _).
    set (g2' := setErrors k (verdict init) _).
    destruct (IH g1' g2') as (r & c & Hr & Hcl & Hrc & Hin & Hout).
    { repeat split; simpl; congruence. }
    { intros j Hj. simpl. apply Hl. now right. }
    exists r, c. split; [exact Hr |]. split; [exact Hcl |].
    split; [exact Hrc |]. split.
    + intros j Hj. destruct (decide (j ∈ rest)) as [Hjr | Hjr].
      * apply Hin, Hjr.
      * apply elem_of_cons in Hj as [-> | Hj]; [| contradiction].
        destruct (Hout k Hjr) as (H1 & H2 & H3 & H4).
        exists init. rewrite H1, H2, H3, H4. subst g1' g2'. simpl.
        rewrite !lookup_insert_eq. auto.
    + intros j Hj. apply not_elem_of_cons in Hj as [Hne Hj].
      destruct (Hout j Hj) as (H1 & H2 & H3 & H4).
      rewrite H1, H2, H3, H4. subst g1' g2'. simpl.
      rewrite !lookup_insert_ne by auto. auto.
Qed.

Lemma snapshots_cover_touches (S : string -> Prop) f g :
  snapshots_cover f -> touches_only S f g -> snapshots_cover g.
Proof.
  intros Hf (K & I & _) k. rewrite K, I. apply Hf.
Qed.

Lemma snapshots_cover_generateField o w f f' fld :
  snapshots_cover f -> generateField o w f = Normal (f', fld) ->
  snapshots_cover f'.
Proof.
  intros Hf (k & _ & _ & _ & ->)%generateField_Normal j.
  destruct w; simpl; intros Hj; apply keys_addKey in Hj as [Hj | ->];
    try (rewrite lookup_insert_eq; eauto; fail);
    (destruct (decide (k = j)) as [<- | Hne];
     [rewrite lookup_insert_eq; eauto |
      rewrite lookup_insert_ne by assumption; unfold addKey;
      case_bool_decide; simpl; now apply Hf]).
Qed.

(** Every registered key of a reachable object has a snapshot. *)
Lemma reachable_snapshots_cover f : reachable f -> snapshots_cover f.
Proof.
  induction 1 as [id | f o w f' fld _ IH H | f name m f' _ IH H
                 | f changes w f' _ IH H | f f' _ IH H | f f' _ IH H
                 | f f' _ IH H | f k _ IH | f _ IH].
  - intros k Hk. inversion Hk.
  - eapply snapshots_cover_generateField; eassumption.
  - apply assign_Normal in H as [_ ->]. exact IH.
  - apply touches_only_update in H as [H _].
    eapply snapshots_cover_touches; eassumption.
  - eapply snapshots_cover_touches; [exact IH | apply touches_only_clear, H].
  - eapply snapshots_cover_touches; [exact IH | apply touches_only_reset, H].
  - eapply snapshots_cover_touches; [exact IH | apply touches_only_validate, H].
  - eapply snapshots_cover_touches; [exact IH | apply touches_only_untouch].
  - eapply snapshots_cover_touches; [exact IH | apply touches_only_untouchAll].
Qed.

Lemma reachable_declare name o w f f' :
  reachable f -> declare name o w f = Normal f' -> reachable f'.
Proof.
  intros Hf. unfold declare.
  destruct (generateField o w f) as [[f1 fld] | e g |] eqn:Hg;
    [| discriminate | discriminate].
  intros Ha. eapply reach_assign; [| exact Ha].
  eapply reach_generateField; eassumption.
Qed.

Lemma reachable_fooForm : reachable fooForm.
Proof.
  destruct (declare "foo" foo_options false (new_Form "k3x9q0a1z"))
    as [f1 | e g |] eqn:H1; [| discriminate H1 | discriminate H1].
  assert (H2 : declare "bar" bar_options true f1 = Normal fooForm).
  { unfold fooForm, FooForm. rewrite H1. simpl.
    injection H1 as <-. vm_compute. reflexivity. }
  eapply reachable_declare; [| exact H2].
  eapply reachable_declare; [apply reach_new | exact H1].
Qed.

Lemma fooForm_keys_not_members :
  Forall (fun k => k ∉ class_members) (keys fooForm).
Proof.
  repeat constructor; apply not_in_keys; reflexivity.
Qed.

(** What [reset()] and [clear()] leave, for an object whose registered
    keys have snapshots and name no member of the class. *)
Lemma reset_clear_result f :
  snapshots_cover f ->
  Forall (fun k => k ∉ class_members) (keys f) ->
  exists fr fc,
    reset f = Normal fr /\ clear f = Normal fc /\
    same_but_errors fr fc /\
    forall k, k ∈ keys f ->
      exists init,
        _initialValues f !! k = Some init /\
        props fr !! k = Some (MField init) /\
        props fc !! k = Some (MField init) /\
        _touched fr !! k = Some false /\
        _touched fc !! k = Some false /\
        _errors fr !! k = Some None /\
        _errors fc !! k = Some (verdict init).
Proof.
  intros Hr Hk.
  destruct (reset_clear_loop (keys f) f f)
    as (fr & fc & H1 & H2 & Hag & Hin & _).
  { repeat split. }
  { intros k Hin. split; [| apply Hr, Hin].
    rewrite Forall_forall in Hk. apply Hk, Hin. }
  exists fr, fc. split; [exact H1 |]. split; [exact H2 |].
  split; [exact Hag |].
  intros k Hin'. destruct (Hin k Hin') as (init & Hi & Hp & Ht & He & Hec).
  destruct Hag as (_ & _ & T & P).
  exists init. rewrite <- P, <- T. auto 10.
Qed.

(** C4. On a reachable object whose registered keys are not names of
    members of the class itself, [reset()] and [clear()] both return, both
    set [this[key]] to the initial snapshot and [touched[key]] to false for
    every registered key, and leave objects that agree on everything but
    the errors map; after [reset()] every registered key's error is
    undefined, after [clear()] it is the result of validating the restored
    initial value. *)
Theorem reset_vs_clear (f : Form) :
  reachable f ->
  Forall (fun k => k ∉ class_members) (keys f) ->
  exists fr fc,
    reset f = Normal fr /\ clear f = Normal fc /\
    same_but_errors fr fc /\
    forall k, k ∈ keys f ->
      exists init,
        initialValues f !! k = Some init /\
        props fr !! k = Some (MField init) /\
        props fc !! k = Some (MField init) /\
        touched fr !! k = Some false /\
        touched fc !! k = Some false /\
        errors fr !! k = Some None /\
        errors fc !! k = Some (verdict init).
Proof.
  intros Hr Hk. apply reachable_snapshots_cover in Hr.
  exact (reset_clear_result f Hr Hk).
Qed.

Lemma reset_vs_clear_witness :
  exists fr fc,
    reset fooForm = Normal fr /\ clear fooForm = Normal fc /\
    same_but_errors fr fc /\
    forall k, k ∈ keys fooForm ->
      exists init,
        initialValues fooForm !! k = Some init /\
        props fr !! k = Some (MField init) /\
        props fc !! k = Some (MField init) /\
        touched fr !! k = Some false /\
        touched fc !! k = Some false /\
        errors fr !! k = Some None /\
        errors fc !! k = Some (verdict init).
Proof.
  apply (reset_vs_clear fooForm reachable_fooForm fooForm_keys_not_members).
Defined.

(* ------------------------------------------------------------------ *)
(** ** The initial snapshots *)
(* ------------------------------------------------------------------ *)




Lemma forEach_returns {A : Type} (body : A -> Form -> Completion Form)
    (P : A -> Prop) (l : list A) :
  (forall a f, P a -> exists g, body a f = Normal g) ->
  Forall P l -> forall f, exists g, forEach body l f = Normal g.
Proof.
  intros Hbody. induction 1 as [| a rest Ha _ IH]; intros f; simpl.
  - eauto.
  - destruct (Hbody a f Ha) as [g ->]. simpl. apply IH.
Qed.




(* ================================================================== *)
(** * Further properties of the methods *)
(* ================================================================== *)

(* ------------------------------------------------------------------ *)
(** ** The errors that validateField can write *)
(* ------------------------------------------------------------------ *)

Lemma run_validation_error rules x tr e :
  run_validation rules x = (tr, Some e) ->
  e <> "" /\
  (e = VALUE_NOT_VALID \/
   exists call, CustomFunc call ∈ rules /\ call x = (false, Some e)).
Proof.
  intros H. apply run_validation_inv in H
    as [(H & _) | (before & v & after & m & -> & _ & Hf & _ & [= ->])];
    [discriminate |].
  apply rule_fails_failure in Hf.
  destruct Hf as [test Ht | call m Hc Hm | call m Hc Hm].
  - split; [discriminate | now left].
  - split; [assumption |]. right. exists call. split; [| assumption].
    apply elem_of_app. right. left.
  - split; [discriminate | now left].
Qed.

(** X1. The error that [validateField] computes for a field is either the
    message of the required check ([requiredMessage] when given, else the
    generic required message), or, when the required check passes, a
    message that is not the empty string: the generic 'Value is not
    valid.' or the message returned by one of the field's callable rules
    that fails on the value. *)
Theorem verdict_cases (t : FieldSource) (e : string) :
  verdict t = Some e ->
  (required_check t = true /\
   e = match requiredMessage t with
       | Some message => message
       | None => VALUE_NOT_REQUIRED
       end) \/
  (required_check t = false /\ e <> "" /\
   (e = VALUE_NOT_VALID \/
    exists call,
      CustomFunc call ∈ validation t /\ call (value t) = (false, Some e))).
Proof.
  unfold verdict. destruct (required_check t) eqn:Hr.
  - unfold check. rewrite Hr. simpl. intros [= <-]. left.
    split; [reflexivity |]. destruct (requiredMessage t); reflexivity.
  - rewrite check_rules by assumption. intros H. right.
    split; [reflexivity |].
    destruct (run_validation (validation t) (value t)) as [tr e'] eqn:Hv.
    simpl in H. subst e'. eapply run_validation_error, Hv.
Qed.

Lemma verdict_cases_witness :
  (required_check nickname_field = true /\
   VALUE_NOT_VALID = match requiredMessage nickname_field with
                     | Some message => message
                     | None => VALUE_NOT_REQUIRED
                     end) \/
  (required_check nickname_field = false /\ VALUE_NOT_VALID <> "" /\
   (VALUE_NOT_VALID = VALUE_NOT_VALID \/
    exists call,
      CustomFunc call ∈ validation nickname_field /\
      call (value nickname_field) = (false, Some VALUE_NOT_VALID))).
Proof.
  apply (verdict_cases nickname_field VALUE_NOT_VALID). reflexivity.
Defined.

(* ------------------------------------------------------------------ *)
(** ** The key list *)
(* ------------------------------------------------------------------ *)


Lemma keys_generateField o w f f' fld :
  generateField o w f = Normal (f', fld) ->
  exists k, Options.key o = Some k /\ keys f' = keys (addKey k f).
Proof.
  intros (k & Hk & _ & _ & ->)%generateField_Normal.
  exists k. split; [assumption |]. destruct w; reflexivity.
Qed.




(* ------------------------------------------------------------------ *)
(** ** Registration, continued *)
(* ------------------------------------------------------------------ *)

Lemma has_property_false f k :
  has_property f k = false <-> (k ∉ class_members) /\ props f !! k = None.
Proof.
  unfold has_property. rewrite orb_false_iff, !bool_decide_eq_false.
  rewrite <- eq_None_not_Some. reflexivity.
Qed.

Lemma props_generateField o w f f' fld :
  generateField o w f = Normal (f', fld) -> props f' = props f.
Proof.
  intros (k & _ & _ & _ & ->)%generateField_Normal.
  unfold addKey. destruct w; simpl; case_bool_decide; reflexivity.
Qed.

(** X3. A [generateField] that registers the key [k] declares nothing on
    the object (its own properties are those it had: binding the returned
    field is left to the caller); it sets [touched[k]] to false, also for
    a key registered before, and [errors[k]] to undefined when the initial
    validation is skipped, else to the validation result of the merged
    field; the entries of the other keys are left as they are. *)
Theorem generateField_entries
    (o : Options.t) (w : bool) (f f' : Form) (fld : FieldSource) (k : string) :
  generateField o w f = Normal (f', fld) ->
  Options.key o = Some k ->
  props f' = props f /\
  touched f' !! k = Some false /\
  errors f' !! k = Some (if w then None else verdict fld) /\
  (forall j, j <> k ->
     touched f' !! j = touched f !! j /\ errors f' !! j = errors f !! j).
Proof.
  intros H Hk. split; [eapply props_generateField, H |].
  apply generateField_Normal in H as (k' & Hk' & _ & _ & ->).
  assert (k' = k) as -> by congruence.
  assert (ET : forall g, _touched (addKey k g) = _touched g)
    by (intros g; unfold addKey; now case_bool_decide).
  assert (EE : forall g, _errors (addKey k g) = _errors g)
    by (intros g; unfold addKey; now case_bool_decide).
  unfold touched, errors.
  destruct w; simpl; rewrite ?ET, ?EE, ?lookup_insert_eq;
    (split; [reflexivity |]); (split; [reflexivity |]);
    intros j Hj; rewrite ?lookup_insert_ne by auto; auto.
Qed.

Lemma generateField_entries_witness :
  exists f' fld,
    generateField foo_again_options false fooForm = Normal (f', fld) /\
    props f' = props fooForm /\
    touched f' !! "foo" = Some false /\
    errors f' !! "foo" = Some (verdict fld) /\
    (forall j, j <> "foo" ->
       touched f' !! j = touched fooForm !! j /\
       errors f' !! j = errors fooForm !! j).
Proof.
  eexists _, _. split; [vm_compute; reflexivity |].
  apply (generateField_entries foo_again_options false fooForm _ _ "foo");
    [vm_compute; reflexivity | reflexivity].
Defined.

Lemma forEach_Normal_inv {A : Type} (body : A -> Form -> Completion Form)
    (P : Form -> Prop) (l : list A) :
  (forall a f g, body a f = Normal g -> P f -> P g) ->
  forall f g a,
    forEach body l f = Normal g -> P f -> a ∈ l ->
    exists f1 g1, P f1 /\ body a f1 = Normal g1.
Proof.
  intros HP. induction l as [| b rest IH]; intros f g a H Hf Hin.
  - inversion Hin.
  - simpl in H. destruct (body b f) as [f1 | e f1 |] eqn:Hb;
      simpl in H; [| discriminate | discriminate].
    apply elem_of_cons in Hin as [-> | Hin].
    + eauto.
    + eapply IH; [exact H | eapply HP; eassumption | exact Hin].
Qed.

Lemma validateField_Normal_props k t f g :
  validateField k t f = Normal g -> props g = props f.
Proof.
  intros H. eapply touches_only_validateField. now rewrite H.
Qed.

(** X4. A key that is registered without being declared on the object
    (and that no member of the class has as its name) is not a field for
    the methods that look at [this[key]]: [update] and [untouch] ignore it,
    [validateField] without a target rejects with a TypeError, and
    [validate()] never completes normally. *)
Theorem undeclared_key_ignored
    (o : Options.t) (w : bool) (f f' : Form) (fld : FieldSource) (k : string) :
  generateField o w f = Normal (f', fld) ->
  Options.key o = Some k ->
  has_property f k = false ->
  k ∈ keys f' /\
  (forall x w', update [(k, x)] w' f' = Normal f') /\
  untouch k f' = f' /\
  validateField k None f' = Throws TypeError f' /\
  (forall g, validate f' <> Normal g).
Proof.
  intros H Hk Hp.
  pose proof (props_generateField _ _ _ _ _ H) as HP.
  assert (Hp' : has_property f' k = false).
  { unfold has_property in *. now rewrite HP. }
  assert (Hin : k ∈ keys f').
  { apply keys_generateField in H as (k' & Hk' & ->).
    assert (k' = k) as -> by congruence. apply keys_addKey. now right. }
  apply has_property_false in Hp' as [Hc Hn].
  assert (Hv : forall f1, props f1 = props f' ->
                 validateField k None f1 = Throws TypeError f1).
  { intros f1 E. unfold validateField. rewrite E, Hn.
    now rewrite bool_decide_eq_false_2. }
  split; [exact Hin |]. split; [| split; [| split]].
  - intros x w'. unfold update. simpl.
    rewrite update_key_not_property; [reflexivity |].
    now apply has_property_false.
  - unfold untouch.
    now rewrite (proj2 (has_property_false f' k) (conj Hc Hn)).
  - now apply Hv.
  - intros g Hg. unfold validate in Hg.
    destruct (forEach_Normal_inv (fun k g => validateField k None g)
                (fun f1 => props f1 = props f') (keys f')) with
      (f := f') (g := g) (a := k) as (f1 & g1 & E & Hb); auto.
    + intros a f1 g1 Hb E. rewrite <- E.
      eapply validateField_Normal_props, Hb.
    + simpl in Hb. rewrite (Hv f1 E) in Hb. discriminate.
Qed.

Lemma undeclared_key_ignored_witness :
  exists f',
    generateField count_options false fooForm
      = Normal (f', initialValue_of "count" count_options) /\
    "count" ∈ keys f' /\
    (forall x w', update [("count", x)] w' f' = Normal f') /\
    untouch "count" f' = f' /\
    validateField "count" None f' = Throws TypeError f' /\
    (forall g, validate f' <> Normal g).
Proof.
  eexists. split; [vm_compute; reflexivity |].
  apply (undeclared_key_ignored count_options false fooForm _
           (initialValue_of "count" count_options) "count");
    [vm_compute; reflexivity | reflexivity | reflexivity].
Defined.

(* ------------------------------------------------------------------ *)
(** ** update on declared fields *)
(* ------------------------------------------------------------------ *)

Lemma Form_eq f g :
  _initialValues f = _initialValues g -> _touched f = _touched g ->
  _errors f = _errors g -> keys f = keys g -> props f = props g -> f = g.
Proof. destruct f, g. simpl. congruence. Qed.

Lemma has_property_declared f k : declared f k -> has_property f k = true.
Proof.
  intros [_ [t Ht]]. unfold has_property. rewrite Ht.
  rewrite (bool_decide_eq_true_2 (is_Some (Some (MField t)))) by eauto.
  apply orb_true_r.
Qed.

(** What [update] does for one change of a declared field. *)
Lemma update_key_field w k x t f :
  k ∉ class_members -> props f !! k = Some (MField t) ->
  update_key w (k, x) f
    = Normal (let f2 := setTouched k true
                          (with_member k (MField (with_value x t)) f) in
              if w then f2 else setErrors k (verdict (with_value x t)) f2).
Proof.
  intros Hc Ht. unfold update_key.
  rewrite has_property_declared by (split; eauto).
  rewrite Ht. simpl. rewrite assign_not_member by assumption. simpl.
  destruct w; [reflexivity |].
  unfold validateField. simpl. rewrite lookup_insert_eq. reflexivity.
Qed.

Lemma declared_update_key (w : bool) k x t f j :
  let f2 := setTouched k true (with_member k (MField (with_value x t)) f) in
  props f !! k = Some (MField t) ->
  declared f j ->
  declared (if w then f2 else setErrors k (verdict (with_value x t)) f2) j.
Proof.
  intros f2 Ht [Hc [tj Hj]]. split; [assumption |].
  destruct (decide (k = j)) as [<- | Hne].
  - exists (with_value x t). destruct w; simpl; apply lookup_insert_eq.
  - exists tj. destruct w; simpl; now rewrite lookup_insert_ne.
Qed.

(** What [update] does on declared fields. *)
Lemma update_declared (changes : list (string * JsVal)) (w : bool) (f : Form) :
  NoDup changes.*1 ->
  (forall k x, (k, x) ∈ changes -> declared f k) ->
  exists g,
    update changes w f = Normal g /\
    (forall k x, (k, x) ∈ changes ->
       exists t,
         props f !! k = Some (MField t) /\
         props g !! k = Some (MField (with_value x t)) /\
         touched g !! k = Some true /\
         errors g !! k = if w then errors f !! k
                         else Some (verdict (with_value x t))) /\
    (forall j, j ∉ changes.*1 ->
       props g !! j = props f !! j /\ touched g !! j = touched f !! j /\
       errors g !! j = errors f !! j).
Proof.
  unfold update, touched, errors. revert f.
  induction changes as [| [k x] rest IH]; intros f Hnd Hd.
  - exists f. split; [reflexivity |]. split; [| auto].
    intros k x Hin. inversion Hin.
  - apply NoDup_cons in Hnd as [Hk Hnd].
    destruct (Hd k x) as [Hc [t Ht]]; [left |].
    simpl. rewrite (update_key_field w k x t f Hc Ht). simpl.
    set (f1 := if w then _ else _).
    assert (Hf1 : forall j, j <> k ->
              props f1 !! j = props f !! j /\
              _touched f1 !! j = _touched f !! j /\
              _errors f1 !! j = _errors f !! j).
    { intros j Hj. subst f1. destruct w; simpl;
        rewrite ?lookup_insert_ne by auto; auto. }
    destruct (IH f1 Hnd) as (g & Hg & Hin & Hout).
    { intros k' x' Hin. subst f1. apply declared_update_key; [assumption |].
      apply (Hd k' x'). now right. }
    exists g. split; [exact Hg |]. split.
    + intros k' x' Hin'. apply elem_of_cons in Hin' as [[= -> ->] | Hin'].
      * destruct (Hout k Hk) as (H1 & H2 & H3). exists t.
        rewrite H1, H2, H3. subst f1.
        destruct w; simpl; rewrite !lookup_insert_eq; auto.
      * assert (Hne : k' <> k).
        { intros ->. apply Hk. apply list_elem_of_fmap. now exists (k, x'). }
        destruct (Hin k' x' Hin') as (t' & H1 & H2 & H3 & H4).
        destruct (Hf1 k' Hne) as (E1 & E2 & E3).
        exists t'. rewrite <- E1, <- E3. auto.
    + intros j Hj. simpl in Hj. apply not_elem_of_cons in Hj as [Hne Hj].
      destruct (Hout j Hj) as (H1 & H2 & H3).
      destruct (Hf1 j Hne) as (E1 & E2 & E3).
      rewrite H1, H2, H3. auto.
Qed.

(** X5. When the change keys are distinct and each names a declared field,
    [update] returns normally; each changed field keeps its attributes and
    holds the new value, its [touched] entry is true, and its [errors]
    entry is the validation result of the field with the new value, or is
    left as it was when validation is skipped; the properties and the
    entries of every other key are left as they were. *)
Theorem update_fields (changes : list (string * JsVal)) (w : bool) (f : Form) :
  NoDup changes.*1 ->
  (forall k x, (k, x) ∈ changes -> declared f k) ->
  exists g,
    update changes w f = Normal g /\
    (forall k x, (k, x) ∈ changes ->
       exists t,
         props f !! k = Some (MField t) /\
         props g !! k = Some (MField (with_value x t)) /\
         touched g !! k = Some true /\
         errors g !! k = if w then errors f !! k
                         else Some (verdict (with_value x t))) /\
    (forall j, j ∉ changes.*1 ->
       props g !! j = props f !! j /\ touched g !! j = touched f !! j /\
       errors g !! j = errors f !! j).
Proof. apply update_declared. Qed.

Lemma declared_fooForm k : k ∈ ["foo"; "bar"] -> declared fooForm k.
Proof.
  intros Hk. split.
  - apply not_in_keys.
    repeat (apply elem_of_cons in Hk as [-> | Hk]; [reflexivity |]).
    inversion Hk.
  - repeat (apply elem_of_cons in Hk as [-> | Hk]; [eexists; reflexivity |]).
    inversion Hk.
Qed.

Lemma update_fields_witness :
  exists g,
    update [("foo", VStr "abcd"); ("bar", VStr "c")] false fooForm = Normal g /\
    (forall k x, (k, x) ∈ [("foo", VStr "abcd"); ("bar", VStr "c")] ->
       exists t,
         props fooForm !! k = Some (MField t) /\
         props g !! k = Some (MField (with_value x t)) /\
         touched g !! k = Some true /\
         errors g !! k = Some (verdict (with_value x t))) /\
    (forall j, j ∉ [("foo", VStr "abcd"); ("bar", VStr "c")].*1 ->
       props g !! j = props fooForm !! j /\
       touched g !! j = touched fooForm !! j /\
       errors g !! j = errors fooForm !! j).
Proof.
  apply (update_fields [("foo", VStr "abcd"); ("bar", VStr "c")] false fooForm).
  - apply (bool_decide_eq_true_1 _). reflexivity.
  - intros k x Hin. apply declared_fooForm.
    apply elem_of_cons in Hin as [[= -> _] | Hin]; [left |].
    apply elem_of_cons in Hin as [[= -> _] | Hin]; [right; left |].
    inversion Hin.
Defined.

Lemma update_key_skip_errors k x f g :
  state_after (update_key true (k, x) f) = Some g -> _errors g = _errors f.
Proof.
  unfold update_key. destruct (has_property f k);
    [| simpl; now intros [= <-]].
  destruct (props f !! k) as [m |].
  - destruct (assign k (spread_with_value m x) f) as [f1 | e f1 |] eqn:Ha;
      simpl; [| | discriminate]; intros [= <-];
      assert (H : state_after (assign k (spread_with_value m x) f) = Some f1)
        by (now rewrite Ha);
      apply assign_state in H as [-> | [_ ->]]; reflexivity.
  - destruct (overwrite_member k f) as [f1 | e f1 |] eqn:Ho;
      simpl; [| | discriminate]; intros [= <-];
      assert (H : state_after (overwrite_member k f) = Some f1)
        by (now rewrite Ho);
      apply overwrite_member_state in H as ->; reflexivity.
Qed.

Lemma update_key_skip_returns k x f :
  k ∉ class_members -> exists g, update_key true (k, x) f = Normal g.
Proof.
  intros Hc. unfold update_key. destruct (has_property f k) eqn:Hp; [| eauto].
  destruct (props f !! k) as [m |] eqn:Hm.
  - rewrite assign_not_member by assumption. simpl. eauto.
  - unfold has_property in Hp. rewrite Hm in Hp.
    rewrite (bool_decide_eq_false_2 (k ∈ class_members)) in Hp by assumption.
    rewrite (bool_decide_eq_false_2 (is_Some None)) in Hp
      by (intros [? ?]; discriminate).
    discriminate.
Qed.

(** X6. With [withoutValidation] set, an [update] none of whose change
    keys is the name of a member of the class returns normally and does
    not write the errors map (the call starts no validation). *)
Theorem update_without_validation (changes : list (string * JsVal))
    (f : Form) :
  (forall k x, (k, x) ∈ changes -> k ∉ class_members) ->
  exists g, update changes true f = Normal g /\ errors g = errors f.
Proof.
  intros Hc.
  destruct (forEach_returns (update_key true)
              (fun c => c.1 ∉ class_members) changes) with (f := f)
    as [g Hg].
  - intros [k x] f' Hk. now apply update_key_skip_returns.
  - apply Forall_forall. intros [k x] Hin. apply (Hc k x Hin).
  - exists g. split; [exact Hg |]. unfold errors.
    refine (forEach_state (fun f g => _errors g = _errors f)
              (update_key true) changes _ _ _ f g _).
    + reflexivity.
    + intros f1 g1 h H1 H2. congruence.
    + intros [k x] f1 g1 _. apply update_key_skip_errors.
    + now rewrite Hg.
Qed.

Lemma update_without_validation_witness :
  exists g,
    update [("foo", VStr "abcde"); ("__identifier", VStr "x"); ("baz", VNull)]
           true fooForm = Normal g /\
    errors g = errors fooForm.
Proof.
  apply (update_without_validation
           [("foo", VStr "abcde"); ("__identifier", VStr "x"); ("baz", VNull)]
           fooForm).
  intros k x Hin. apply not_in_keys.
  apply elem_of_cons in Hin as [[= -> _] | Hin]; [reflexivity |].
  apply elem_of_cons in Hin as [[= -> _] | Hin]; [reflexivity |].
  apply elem_of_cons in Hin as [[= -> _] | Hin]; [reflexivity |].
  inversion Hin.
Defined.

(* ------------------------------------------------------------------ *)
(** ** The order of the changes *)
(* ------------------------------------------------------------------ *)

Lemma update_key_commute w a x b y f :
  a <> b -> declared f a -> declared f b ->
  and_then (update_key w (a, x) f) (update_key w (b, y))
  = and_then (update_key w (b, y) f) (update_key w (a, x)).
Proof.
  intros Hne [Hca [ta Ha]] [Hcb [tb Hb]].
  rewrite (update_key_field w a x ta f Hca Ha).
  rewrite (update_key_field w b y tb f Hcb Hb). simpl.
  rewrite (update_key_field w b y tb) by
    (try assumption; destruct w; simpl; now rewrite lookup_insert_ne).
  rewrite (update_key_field w a x ta) by
    (try assumption; destruct w; simpl; rewrite lookup_insert_ne; auto).
  f_equal. apply Form_eq; destruct w; simpl; try reflexivity;
    apply insert_insert_ne; auto.
Qed.

Lemma declared_after_update_key w k x f f1 j :
  declared f k -> update_key w (k, x) f = Normal f1 ->
  declared f j -> declared f1 j.
Proof.
  intros [Hc [t Ht]] H Hj.
  rewrite (update_key_field w k x t f Hc Ht) in H. injection H as <-.
  now apply declared_update_key.
Qed.

Lemma update_permutation_loop w (l l' : list (string * JsVal)) :
  l ≡ₚ l' ->
  forall f,
    NoDup l.*1 -> (forall c, c ∈ l -> declared f c.1) ->
    forEach (update_key w) l f = forEach (update_key w) l' f.
Proof.
  induction 1 as [| [k x] l l' Hp IH | [a x] [b y] l | l l' l'' H1 IH1 H2 IH2];
    intros f Hnd Hd.
  - reflexivity.
  - simpl. apply NoDup_cons in Hnd as [_ Hnd].
    destruct (Hd (k, x)) as [Hc [t Ht]]; [left |].
    destruct (update_key w (k, x) f) as [f1 | e f1 |] eqn:Hu; simpl;
      [| reflexivity | reflexivity].
    apply IH; [assumption |].
    intros c Hin. eapply declared_after_update_key; [| exact Hu |].
    + split; eauto.
    + apply Hd. now right.
  - simpl in *. apply NoDup_cons in Hnd as [Hb Hnd].
    apply NoDup_cons in Hnd as [_ Hnd].
    assert (Hne : a <> b).
    { intros ->. apply Hb. left. }
    assert (Hda : declared f a) by (apply (Hd (a, x)); right; left).
    assert (Hdb : declared f b) by (apply (Hd (b, y)); left).
    pose proof (update_key_commute w a x b y f Hne Hda Hdb) as Hcomm.
    destruct Hda as [Hca [ta Hta]]. destruct Hdb as [Hcb [tb Htb]].
    rewrite (update_key_field w a x ta f Hca Hta) in *.
    rewrite (update_key_field w b y tb f Hcb Htb) in *.
    simpl in *.
    destruct (update_key w (a, x) _) as [fba | |];
      destruct (update_key w (b, y) _) as [fab | |];
      simpl in *; congruence.
  - rewrite IH1 by assumption. apply IH2.
    + now rewrite <- H1.
    + intros c Hin. apply Hd. now rewrite H1.
Qed.

(** X7. The order in which the changes are listed does not matter: for
    distinct change keys that name declared fields, [update] ends in the
    same object for every order of the changes. *)
Theorem update_order_irrelevant
    (changes changes' : list (string * JsVal)) (w : bool) (f : Form) :
  changes ≡ₚ changes' ->
  NoDup changes.*1 ->
  (forall k x, (k, x) ∈ changes -> declared f k) ->
  update changes w f = update changes' w f.
Proof.
  intros Hp Hnd Hd. unfold update.
  apply update_permutation_loop; [assumption | assumption |].
  intros [k x] Hin. apply (Hd k x Hin).
Qed.

Lemma update_order_irrelevant_witness :
  update [("foo", VStr "abcd"); ("bar", VStr "c")] false fooForm
  = update [("bar", VStr "c"); ("foo", VStr "abcd")] false fooForm.
Proof.
  apply (update_order_irrelevant
           [("foo", VStr "abcd"); ("bar", VStr "c")]
           [("bar", VStr "c"); ("foo", VStr "abcd")] false fooForm).
  - apply perm_swap.
  - apply (bool_decide_eq_true_1 _). reflexivity.
  - intros k x Hin. apply declared_fooForm.
    apply elem_of_cons in Hin as [[= -> _] | Hin]; [left |].
    apply elem_of_cons in Hin as [[= -> _] | Hin]; [right; left |].
    inversion Hin.
Defined.

(** X8. A later [update] of a declared field overrides an earlier one
    that skipped validation: the object after the two calls is the object
    after the later call alone. *)
Theorem update_last_wins
    (k : string) (x y : JsVal) (w : bool) (f : Form) :
  declared f k ->
  and_then (update [(k, x)] true f) (update [(k, y)] w) = update [(k, y)] w f.
Proof.
  intros [Hc [t Ht]]. unfold update. simpl.
  rewrite (update_key_field true k x t f Hc Ht).
  rewrite (update_key_field w k y t f Hc Ht). simpl.
  rewrite (update_key_field w k y (with_value x t)) by
    (try assumption; simpl; apply lookup_insert_eq).
  simpl. f_equal.
  destruct w; simpl;
    apply Form_eq; simpl; rewrite ?insert_insert_eq; reflexivity.
Qed.

Lemma update_last_wins_witness :
  and_then (update [("foo", VStr "abcde")] true fooForm)
           (update [("foo", VStr "abcd")] false)
  = update [("foo", VStr "abcd")] false fooForm.
Proof.
  apply (update_last_wins "foo" (VStr "abcde") (VStr "abcd") false fooForm).
  apply declared_fooForm. left.
Defined.

(* ------------------------------------------------------------------ *)
(** ** untouch and untouchAll *)
(* ------------------------------------------------------------------ *)

Lemma untouch_list_spec (l : list string) f :
  let g := foldl (fun g k => setTouched k false g) f l in
  props g = props f /\ _errors g = _errors f /\ keys g = keys f /\
  _initialValues g = _initialValues f /\
  (forall k, k ∈ l -> _touched g !! k = Some false) /\
  (forall j, j ∉ l -> _touched g !! j = _touched f !! j).
Proof.
  revert f. induction l as [| k rest IH]; intros f; simpl.
  - repeat split; auto. intros k Hk. inversion Hk.
  - destruct (IH (setTouched k false f)) as (P & E & K & I & Hin & Hout).
    simpl in *. repeat split; try assumption.
    + intros j Hj. destruct (decide (j ∈ rest)) as [Hr | Hr]; [auto |].
      apply elem_of_cons in Hj as [-> | Hj]; [| contradiction].
      rewrite (Hout k Hr). apply lookup_insert_eq.
    + intros j Hj. apply not_elem_of_cons in Hj as [Hne Hj].
      rewrite (Hout j Hj). now apply lookup_insert_ne.
Qed.

(** X9. [untouchAll()] sets the [touched] entry of every registered key to
    false and changes nothing else: the fields, the errors, the key list,
    the snapshots and the [touched] entries of other keys are as before.
    Calling it twice is calling it once. *)
Theorem untouchAll_effect (f : Form) :
  props (untouchAll f) = props f /\
  errors (untouchAll f) = errors f /\
  (forall k, k ∈ keys f -> touched (untouchAll f) !! k = Some false) /\
  (forall j, j ∉ keys f -> touched (untouchAll f) !! j = touched f !! j) /\
  untouchAll (untouchAll f) = untouchAll f.
Proof.
  unfold errors, touched.
  destruct (untouch_list_spec (keys f) f) as (P & E & K & I & Hin & Hout).
  fold (untouchAll f) in *.
  split; [exact P |]. split; [exact E |]. split; [exact Hin |].
  split; [exact Hout |].
  destruct (untouch_list_spec (keys (untouchAll f)) (untouchAll f))
    as (P' & E' & K' & I' & Hin' & Hout').
  fold (untouchAll (untouchAll f)) in *.
  apply Form_eq; try assumption.
  apply map_eq. intros j. destruct (decide (j ∈ keys f)) as [Hj | Hj].
  - rewrite Hin' by now rewrite K. now rewrite Hin.
  - apply Hout'. now rewrite K.
Qed.

Lemma has_property_setTouched k b f j :
  has_property (setTouched k b f) j = has_property f j.
Proof. reflexivity. Qed.

Lemma untouch_list_properties (l : list string) f :
  (forall k, k ∈ l -> has_property f k = true) ->
  foldl (fun g k => untouch k g) f l
  = foldl (fun g k => setTouched k false g) f l.
Proof.
  revert f. induction l as [| k rest IH]; intros f H; simpl; [reflexivity |].
  unfold untouch at 2. rewrite H by left.
  apply IH. intros j Hj. rewrite has_property_setTouched. apply H. now right.
Qed.

(** X10. When every registered key is a property of the object,
    [untouchAll()] is [untouch(key)] called for each registered key in
    turn. *)
Theorem untouchAll_is_untouch_each (f : Form) :
  (forall k, k ∈ keys f -> has_property f k = true) ->
  untouchAll f = foldl (fun g k => untouch k g) f (keys f).
Proof.
  intros H. unfold untouchAll. symmetry. now apply untouch_list_properties.
Qed.

Lemma untouchAll_is_untouch_each_witness :
  untouchAll fooForm = untouch "bar" (untouch "foo" fooForm).
Proof.
  apply (untouchAll_is_untouch_each fooForm).
  intros k Hk. apply has_property_declared, declared_fooForm, Hk.
Defined.

(* ------------------------------------------------------------------ *)
(** ** reset, clear and validate together *)
(* ------------------------------------------------------------------ *)

Lemma restored_unique err f g g' :
  restored err f g -> restored err f g' -> g = g'.
Proof.
  intros (K & I & Hin & Hout) (K' & I' & Hin' & Hout').
  apply Form_eq; try congruence; apply map_eq; intros j;
    destruct (decide (j ∈ keys f)) as [Hj | Hj].
  - destruct (Hin j Hj) as (i & Hi & _ & -> & _).
    destruct (Hin' j Hj) as (i' & Hi' & _ & -> & _). reflexivity.
  - destruct (Hout j Hj) as (_ & -> & _).
    destruct (Hout' j Hj) as (_ & -> & _). reflexivity.
  - destruct (Hin j Hj) as (i & Hi & _ & _ & ->).
    destruct (Hin' j Hj) as (i' & Hi' & _ & _ & ->). congruence.
  - destruct (Hout j Hj) as (_ & _ & ->).
    destruct (Hout' j Hj) as (_ & _ & ->). reflexivity.
  - destruct (Hin j Hj) as (i & Hi & -> & _).
    destruct (Hin' j Hj) as (i' & Hi' & -> & _). congruence.
  - destruct (Hout j Hj) as (-> & _).
    destruct (Hout' j Hj) as (-> & _). reflexivity.
Qed.

Lemma restored_trans err1 err2 f g h :
  restored err1 f g -> restored err2 g h -> restored err2 f h.
Proof.
  intros (K & I & Hin & Hout) (K' & I' & Hin' & Hout').
  rewrite K, I in *. split; [assumption |]. split; [assumption |]. split.
  - intros k Hk. destruct (Hin' k Hk) as (i & Hi & H). eauto.
  - intros j Hj. destruct (Hout j Hj) as (<- & <- & <-). now apply Hout'.
Qed.

Lemma restorable_restored err f g : restorable f -> restored err f g -> restorable g.
Proof.
  intros [Hs Hm] (K & I & _). split.
  - intros k. rewrite K, I. apply Hs.
  - now rewrite K.
Qed.

Lemma reset_clear_restored f :
  restorable f ->
  exists fr fc,
    reset f = Normal fr /\ clear f = Normal fc /\
    restored (fun _ => None) f fr /\ restored verdict f fc.
Proof.
  intros [Hs Hm].
  destruct (reset_clear_loop (keys f) f f)
    as (fr & fc & H1 & H2 & (_ & _ & T & P) & Hin & Hout).
  { repeat split. }
  { intros k Hin. split; [| apply Hs, Hin].
    rewrite Forall_forall in Hm. apply Hm, Hin. }
  exists fr, fc. split; [exact H1 |]. split; [exact H2 |].
  assert (Hr : touches_only (fun j => j ∈ keys f) f fr)
    by (apply touches_only_reset; unfold reset; now rewrite H1).
  assert (Hc : touches_only (fun j => j ∈ keys f) f fc)
    by (apply touches_only_clear; unfold clear; now rewrite H2).
  destruct Hr as (Kr & Ir & _). destruct Hc as (Kc & Ic & _).
  split; (split; [assumption |]); (split; [assumption |]); split.
  - intros k Hk. destruct (Hin k Hk) as (i & Hi & Hp & Ht & He & _). eauto.
  - intros j Hj. destruct (Hout j Hj) as (Hp & Ht & He & _). auto.
  - intros k Hk. destruct (Hin k Hk) as (i & Hi & Hp & Ht & _ & He).
    exists i. rewrite <- P, <- T. auto.
  - intros j Hj. destruct (Hout j Hj) as (Hp & Ht & _ & He).
    rewrite <- P, <- T. auto.
Qed.

Lemma reset_restored f fr :
  restorable f -> reset f = Normal fr -> restored (fun _ => None) f fr.
Proof.
  intros Hf H. destruct (reset_clear_restored f Hf) as (r & _ & Hr & _ & R & _).
  congruence.
Qed.

Lemma clear_restored f fc :
  restorable f -> clear f = Normal fc -> restored verdict f fc.
Proof.
  intros Hf H. destruct (reset_clear_restored f Hf) as (_ & c & _ & Hc & _ & C).
  congruence.
Qed.

(** X11. On an object whose registered keys can be restored, [reset()]
    and [clear()] are idempotent, and [clear()] after [reset()] is
    [clear()].  (Nothing is stated of [reset()] after [clear()]: the
    validations that [clear()] starts may still be pending then.) *)
Theorem reset_clear_compose (f : Form) :
  restorable f ->
  and_then (reset f) reset = reset f /\
  and_then (clear f) clear = clear f /\
  and_then (reset f) clear = clear f.
Proof.
  intros Hf.
  destruct (reset_clear_restored f Hf) as (fr & fc & Hr & Hc & Rr & Rc).
  pose proof (restorable_restored _ f fr Hf Rr) as Hfr.
  pose proof (restorable_restored _ f fc Hf Rc) as Hfc.
  destruct (reset_clear_restored fr Hfr) as (frr & frc & Hrr & Hrc & Rrr & Rrc).
  destruct (reset_clear_restored fc Hfc) as (fcr & fcc & Hcr & Hcc & Rcr & Rcc).
  rewrite Hr, Hc. simpl. rewrite Hrr, Hrc, Hcc.
  repeat split; f_equal.
  - exact (restored_unique _ f _ _ (restored_trans _ _ f fr frr Rr Rrr) Rr).
  - exact (restored_unique _ f _ _ (restored_trans _ _ f fc fcc Rc Rcc) Rc).
  - exact (restored_unique _ f _ _ (restored_trans _ _ f fr frc Rr Rrc) Rc).
Qed.

Lemma restorable_fooForm : restorable fooForm.
Proof.
  split; [apply reachable_snapshots_cover, reachable_fooForm |].
  apply fooForm_keys_not_members.
Qed.

Lemma reset_clear_compose_witness :
  and_then (reset fooForm) reset = reset fooForm /\
  and_then (clear fooForm) clear = clear fooForm /\
  and_then (reset fooForm) clear = clear fooForm.
Proof. apply (reset_clear_compose fooForm restorable_fooForm). Defined.

Lemma validateField_bound k t f :
  props f !! k = Some (MField t) ->
  validateField k None f = Normal (setErrors k (verdict t) f).
Proof. intros H. unfold validateField. now rewrite H. Qed.

Lemma validate_loop (l : list string) :
  forall f,
    fields_bound f l ->
    exists g,
      forEach (fun k g => validateField k None g) l f = Normal g /\
      props g = props f /\ _touched g = _touched f /\ keys g = keys f /\
      _initialValues g = _initialValues f /\
      (forall k t, k ∈ l -> props f !! k = Some (MField t) ->
         _errors g !! k = Some (verdict t)) /\
      (forall j, j ∉ l -> _errors g !! j = _errors f !! j).
Proof.
  induction l as [| k rest IH]; intros f Hb.
  - exists f. simpl. repeat split; auto. intros k t Hk. inversion Hk.
  - destruct (Hb k) as [t Ht]; [left |].
    simpl. rewrite (validateField_bound k t f Ht). simpl.
    destruct (IH (setErrors k (verdict t) f))
      as (g & Hg & P & T & K & I & Hin & Hout).
    { intros j Hj. apply Hb. now right. }
    simpl in *. exists g. repeat split; try assumption.
    + intros j tj Hj Htj. destruct (decide (j ∈ rest)) as [Hr | Hr].
      * now apply Hin.
      * apply elem_of_cons in Hj as [-> | Hj]; [| contradiction].
        rewrite (Hout k Hr), lookup_insert_eq. congruence.
    + intros j Hj. apply not_elem_of_cons in Hj as [Hne Hj].
      rewrite (Hout j Hj). now apply lookup_insert_ne.
Qed.

(** X12. When every registered key is bound to a field object,
    [validate()] completes normally; it sets the [errors] entry of every
    registered key to the validation result of the field's current value
    and changes nothing else; and it can be called redundantly: a second
    call right after leaves the object as it is. *)
Theorem validate_fields (f : Form) :
  fields_bound f (keys f) ->
  exists g,
    validate f = Normal g /\
    props g = props f /\ touched g = touched f /\ keys g = keys f /\
    initialValues g = initialValues f /\
    (forall k t, k ∈ keys f -> props f !! k = Some (MField t) ->
       errors g !! k = Some (verdict t)) /\
    (forall j, j ∉ keys f -> errors g !! j = errors f !! j) /\
    validate g = Normal g.
Proof.
  intros Hb. unfold validate, touched, errors, initialValues.
  destruct (validate_loop (keys f) f Hb)
    as (g & Hg & P & T & K & I & Hin & Hout).
  exists g. repeat split; try assumption.
  destruct (validate_loop (keys g) g) as (h & Hh & P' & T' & K' & I' & Hin' & Hout').
  { intros k Hk. rewrite P. apply Hb. now rewrite <- K. }
  rewrite Hh. f_equal. apply Form_eq; try assumption.
  apply map_eq. intros j. destruct (decide (j ∈ keys g)) as [Hj | Hj].
  - destruct (Hb j) as [t Ht]; [now rewrite <- K |].
    rewrite (Hin' j t Hj) by now rewrite P.
    symmetry. apply Hin; [now rewrite <- K | assumption].
  - now apply Hout'.
Qed.

Lemma fields_bound_fooForm : fields_bound fooForm (keys fooForm).
Proof. intros k Hk. apply (declared_fooForm k Hk). Qed.

Lemma validate_fields_witness :
  exists g,
    validate fooForm = Normal g /\
    props g = props fooForm /\ touched g = touched fooForm /\
    keys g = keys fooForm /\ initialValues g = initialValues fooForm /\
    (forall k t, k ∈ keys fooForm -> props fooForm !! k = Some (MField t) ->
       errors g !! k = Some (verdict t)) /\
    (forall j, j ∉ keys fooForm -> errors g !! j = errors fooForm !! j) /\
    validate g = Normal g.
Proof. apply (validate_fields fooForm fields_bound_fooForm). Defined.

(** X13. [clear()] is [reset()] followed by [validate()]: on an object
    whose registered keys can be restored, validating after a reset ends
    in the object that [clear()] produces. *)
Theorem clear_is_reset_then_validate (f : Form) :
  restorable f -> and_then (reset f) validate = clear f.
Proof.
  intros Hf.
  destruct (reset_clear_restored f Hf) as (fr & fc & Hr & Hc & Rr & Rc).
  rewrite Hr, Hc. simpl.
  assert (Hb : fields_bound fr (keys fr)).
  { destruct Rr as (K & _ & Hin & _). intros k Hk. rewrite K in Hk.
    destruct (Hin k Hk) as (i & _ & Hp & _). eauto. }
  destruct (validate_loop (keys fr) fr Hb)
    as (g & Hg & P & T & K & I & Hin & Hout).
  unfold validate. rewrite Hg. f_equal.
  apply (restored_unique verdict f); [| exact Rc].
  destruct Rr as (Kr & Ir & Hinr & Houtr).
  split; [congruence |]. split; [congruence |]. split.
  - intros k Hk. destruct (Hinr k Hk) as (i & Hi & Hp & Ht & _).
    exists i. rewrite P, T. repeat split; try assumption.
    apply Hin; [now rewrite Kr | assumption].
  - intros j Hj. destruct (Houtr j Hj) as (Hp & Ht & He).
    rewrite P, T, Hout by now rewrite Kr. auto.
Qed.

Lemma clear_is_reset_then_validate_witness :
  and_then (reset fooForm) validate = clear fooForm.
Proof. apply (clear_is_reset_then_validate fooForm restorable_fooForm). Defined.

(* ------------------------------------------------------------------ *)
(** ** isValid after reset, clear and validate *)
(* ------------------------------------------------------------------ *)






(* ------------------------------------------------------------------ *)
(** ** validate and a key that is not declared *)
(* ------------------------------------------------------------------ *)

Lemma forEach_app {A : Type} (body : A -> Form -> Completion Form)
    (l1 l2 : list A) f :
  forEach body (l1 ++ l2) f = and_then (forEach body l1 f) (forEach body l2).
Proof.
  revert f. induction l1 as [| a rest IH]; intros f; simpl; [reflexivity |].
  destruct (body a f); simpl; auto.
Qed.

(** X16. [validate()] stops at the first registered key that is not a
    property of the object: it rejects with a TypeError, the registered
    keys before it (bound to field objects) have been validated, and the
    [errors] entries of every other key, those of the keys after it
    included, are left as they were. *)
Theorem validate_stops_at_undeclared
    (f : Form) (before after : list string) (k : string) :
  keys f = before ++ k :: after ->
  fields_bound f before ->
  has_property f k = false ->
  exists g,
    validate f = Throws TypeError g /\
    props g = props f /\ touched g = touched f /\
    (forall j t, j ∈ before -> props f !! j = Some (MField t) ->
       errors g !! j = Some (verdict t)) /\
    (forall j, j ∉ before -> errors g !! j = errors f !! j).
Proof.
  intros Hk Hb Hp. apply has_property_false in Hp as [Hc Hn].
  destruct (validate_loop before f Hb)
    as (g & Hg & P & T & K & I & Hin & Hout).
  exists g. unfold validate, touched, errors.
  rewrite Hk, forEach_app, Hg. simpl.
  unfold validateField at 1. rewrite P, Hn.
  rewrite bool_decide_eq_false_2 by assumption. simpl.
  repeat split; assumption.
Qed.

Lemma validate_stops_at_undeclared_witness :
  exists f g,
    generateField count_options true fooForm
      = Normal (f, initialValue_of "count" count_options) /\
    validate f = Throws TypeError g /\
    props g = props f /\ touched g = touched f /\
    (forall j t, j ∈ ["foo"; "bar"] -> props f !! j = Some (MField t) ->
       errors g !! j = Some (verdict t)) /\
    (forall j, j ∉ ["foo"; "bar"] -> errors g !! j = errors f !! j).
Proof.
  eexists. 
  assert (H : forall f, 
             generateField count_options true fooForm
               = Normal (f, initialValue_of "count" count_options) ->
             exists g, 
               generateField count_options true fooForm
                 = Normal (f, initialValue_of "count" count_options) /\
               validate f = Throws TypeError g /\
               props g = props f /\ touched g = touched f /\
               (forall j t, j ∈ ["foo"; "bar"] ->
                  props f !! j = Some (MField t) ->
                  errors g !! j = Some (verdict t)) /\
               (forall j, j ∉ ["foo"; "bar"] -> errors g !! j = errors f !! j)).
  { intros f Hf.
    destruct (validate_stops_at_undeclared f ["foo"; "bar"] [] "count")
      as (g & Hg).
    - apply keys_generateField in Hf as (k & Hk & ->).
      injection Hk as <-. reflexivity.
    - intros j Hj. rewrite (props_generateField _ _ _ _ _ Hf).
      apply (declared_fooForm j Hj).
    - unfold has_property. rewrite (props_generateField _ _ _ _ _ Hf).
      reflexivity.
    - exists g. split; [exact Hf | exact Hg]. }
  apply H. vm_compute. reflexivity.
Defined.

(* ------------------------------------------------------------------ *)
(** ** The properties that a call leaves alone *)
(* ------------------------------------------------------------------ *)








(* ------------------------------------------------------------------ *)
(** ** reset and clear after update *)
(* ------------------------------------------------------------------ *)

(** X18. [reset()] and [clear()] undo every [update] of registered
    fields that skipped validation: for distinct change keys that are
    registered and name declared fields, resetting (clearing) after an
    [update] with [withoutValidation] set ends in the object that
    resetting (clearing) without the update produces. *)
Theorem reset_after_update
    (changes : list (string * JsVal)) (f : Form) :
  restorable f ->
  NoDup changes.*1 ->
  (forall k x, (k, x) ∈ changes -> k ∈ keys f /\ declared f k) ->
  and_then (update changes true f) reset = reset f /\
  and_then (update changes true f) clear = clear f.
Proof.
  intros Hf Hnd Hd.
  destruct (update_declared changes true f Hnd) as (g & Hg & _ & Hout).
  { intros k x Hin. apply (Hd k x Hin). }
  assert (Ht : state_after (update changes true f) = Some g)
    by now rewrite Hg.
  apply touches_only_update in Ht as [(K & I & _) _].
  assert (Hfg : restorable g).
  { destruct Hf as [Hs Hm]. split.
    - intros k. rewrite K, I. apply Hs.
    - now rewrite K. }
  assert (Hframe : forall j, j ∉ keys f ->
            props g !! j = props f !! j /\
            _touched g !! j = _touched f !! j /\
            _errors g !! j = _errors f !! j).
  { intros j Hj. apply Hout. intros Hin.
    apply list_elem_of_fmap in Hin as ([k x] & -> & Hin).
    apply Hj. apply (Hd k x Hin). }
  assert (Hback : forall err h, restored err g h -> restored err f h).
  { intros err h (K' & I' & Hin' & Hout').
    rewrite K, I in *. split; [assumption |]. split; [assumption |]. split.
    - exact Hin'.
    - intros j Hj. destruct (Hout' j Hj) as (-> & -> & ->).
      now apply Hframe. }
  destruct (reset_clear_restored f Hf) as (fr & fc & Hr & Hc & Rr & Rc).
  destruct (reset_clear_restored g Hfg) as (gr & gc & Hgr & Hgc & Rgr & Rgc).
  rewrite Hg, Hr, Hc. simpl. rewrite Hgr, Hgc.
  split; f_equal.
  - exact (restored_unique _ f _ _ (Hback _ _ Rgr) Rr).
  - exact (restored_unique _ f _ _ (Hback _ _ Rgc) Rc).
Qed.

Lemma reset_after_update_witness :
  and_then (update [("foo", VStr "abcde"); ("bar", VStr "c")] true fooForm)
           reset = reset fooForm /\
  and_then (update [("foo", VStr "abcde"); ("bar", VStr "c")] true fooForm)
           clear = clear fooForm.
Proof.
  apply (reset_after_update [("foo", VStr "abcde"); ("bar", VStr "c")]
           fooForm restorable_fooForm).
  - apply (bool_decide_eq_true_1 _). reflexivity.
  - intros k x Hin.
    assert (Hk : k ∈ ["foo"; "bar"]).
    { apply elem_of_cons in Hin as [[= -> _] | Hin]; [left |].
      apply elem_of_cons in Hin as [[= -> _] | Hin]; [right; left |].
      inversion Hin. }
    split; [exact Hk | apply declared_fooForm, Hk].
Defined.

(* ------------------------------------------------------------------ *)
(** ** update on a property that is not a field *)
(* ------------------------------------------------------------------ *)

Lemma obj_get_obj_set entries name x other :
  obj_get (obj_set entries name x) other
  = if bool_decide (other = name) then x else obj_get entries other.
Proof.
  induction entries as [| [n y] rest IH]; simpl.
  - destruct (decide (name = other)) as [<- | Hne].
    + now rewrite !bool_decide_eq_true_2.
    + now rewrite !bool_decide_eq_false_2 by auto.
  - destruct (decide (n = name)) as [-> | Hn].
    + rewrite (bool_decide_eq_true_2 (name = name)) by reflexivity. simpl.
      destruct (decide (name = other)) as [<- | Hne].
      * now rewrite !bool_decide_eq_true_2.
      * now rewrite !bool_decide_eq_false_2 by auto.
    + rewrite (bool_decide_eq_false_2 (n = name)) by assumption. simpl.
      rewrite IH. destruct (decide (n = other)) as [<- | Hne].
      * rewrite bool_decide_eq_true_2 by reflexivity.
        now rewrite bool_decide_eq_false_2 by assumption.
      * now rewrite (bool_decide_eq_false_2 (n = other)) by assumption.
Qed.

(** X19. [update] treats any own property as a field.  For a property
    that holds a data value with no [isRequired] and no [validation] of
    its own (a string, a number, an array, ...), a validating [update]
    replaces the value by the object [{...value, value: x}], marks the key
    touched and sets its [errors] entry to undefined. *)
Theorem update_other_property
    (k : string) (v x : JsVal) (f : Form) :
  k ∉ class_members ->
  props f !! k = Some (MOther v) ->
  truthy (obj_get (own_enumerable v) "isRequired") = false ->
  isEmpty (obj_get (own_enumerable v) "validation") = true ->
  update [(k, x)] false f
    = Normal (setErrors k None
                (setTouched k true
                   (with_member k
                      (MOther (VObj (obj_set (own_enumerable v) "value" x)))
                      f))) /\
  obj_get (obj_set (own_enumerable v) "value" x) "value" = x.
Proof.
  intros Hc Hv Hr Hval. split.
  - unfold update. simpl. unfold update_key.
    assert (Hp : has_property f k = true).
    { unfold has_property. rewrite Hv.
      rewrite (bool_decide_eq_true_2 (is_Some (Some (MOther v)))) by eauto.
      apply orb_true_r. }
    rewrite Hp, Hv. simpl. rewrite assign_not_member by assumption. simpl.
    unfold validateField. simpl. rewrite lookup_insert_eq. simpl.
    rewrite !obj_get_obj_set. simpl. rewrite Hr. simpl.
    rewrite Hval. reflexivity.
  - rewrite obj_get_obj_set. now rewrite bool_decide_eq_true_2.
Qed.

Lemma update_other_property_witness :
  update [("__identifier", VStr "x")] false fooForm
    = Normal (setErrors "__identifier" None
                (setTouched "__identifier" true
                   (with_member "__identifier"
                      (MOther (VObj (obj_set
                                       (own_enumerable (VStr "k3x9q0a1z"))
                                       "value" (VStr "x"))))
                      fooForm))) /\
  obj_get (obj_set (own_enumerable (VStr "k3x9q0a1z")) "value" (VStr "x"))
          "value" = VStr "x".
Proof.
  apply (update_other_property "__identifier" (VStr "k3x9q0a1z") (VStr "x")
           fooForm);
    [apply not_in_keys; reflexivity | reflexivity | reflexivity | reflexivity].
Defined.

(* ------------------------------------------------------------------ *)
(** ** One field and the validity of the form *)
(* ------------------------------------------------------------------ *)

(** X20. After [validateField] has written the entry of the key [k],
    [isValid] is true exactly when the field passes and every entry of
    the other keys is undefined: one failing field makes the form invalid,
    and a passing one makes it valid only if the others are. *)
Theorem isValid_after_validateField
    (k : string) (t : FieldSource) (f : Form) :
  validateField k (Some t) f = Normal (setErrors k (verdict t) f) /\
  (isValid (setErrors k (verdict t) f) = true <->
   verdict t = None /\
   forall j e, j <> k -> errors f !! j = Some e -> e = None).
Proof.
  split; [reflexivity |]. unfold errors. rewrite isValid_true. simpl. split.
  - intros H. split.
    + apply (H k). apply lookup_insert_eq.
    + intros j e Hj He. apply (H j). now rewrite lookup_insert_ne.
  - intros [Hv H] j e. destruct (decide (k = j)) as [<- | Hne].
    + rewrite lookup_insert_eq. congruence.
    + rewrite lookup_insert_ne by assumption. apply H. auto.
Qed.
